(** * Incremental weather-data ingestion: a shallow embedding of
      [fetchSensor] and [main] of the optimized fetcher script, with the
      properties of its merge, append and watermark logic.

    Conventions of the embedding.
    - Timestamps are JavaScript numbers holding integers (epoch
      milliseconds); they are modelled as [Z].
    - Sensor values are only ever copied, never computed on; the development
      is parametric in their type [V].
    - [undefined] is modelled by [None].
    - The asynchronous program is sequential (every promise is awaited at
      once), so it is embedded in a state-and-exception monad over the
      remote database and the trace of awaited delays.  The upstream API, the
      failures of the database and the clock are inputs (record [env]). *)

From Stdlib Require Import ZArith Lia.
From stdpp Require Import base option list gmap fin_maps strings sorting.

Set Default Proof Using "Type".

(** ** Data model *)

(** One observation, as built by [records.map(([timestamp, value]) => ...)].
    The field [unit] of the source is called [unit_] here ([unit] is the
    name of a standard type). *)
Record reading (V : Type) := Reading {
  timestamp : Z;
  value : V;
  sensorKey : string;
  unit_ : string;
}.
Arguments Reading {V} _ _ _ _.
Arguments timestamp {V} _.
Arguments value {V} _.
Arguments sensorKey {V} _.
Arguments unit_ {V} _.

(** An entry of [sensorMeta]: the per-sensor watermark.  A stored entry may
    lack [latestValue] (the code tests it against [undefined]). *)
Record watermark (V : Type) := Watermark {
  lastTimestamp : Z;
  latestValue : option V;
  lastUpdated : Z;
}.
Arguments Watermark {V} _ _ _.
Arguments lastTimestamp {V} _.
Arguments latestValue {V} _.
Arguments lastUpdated {V} _.

(** An entry of the [SENSORS] table. *)
Record sensor_config := SensorConfig {
  sn : string;
  name : string;
  cfg_unit : string;
}.

(** The node [sensorData/<key>]: an array stored by index, its
    [recordCount] and [lastUpdated] fields (each possibly absent). *)
Record sensor_log (V : Type) := SensorLog {
  data : gmap Z (reading V);
  recordCount : option Z;
  logLastUpdated : option Z;
}.
Arguments SensorLog {V} _ _ _.
Arguments data {V} _.
Arguments recordCount {V} _.
Arguments logLastUpdated {V} _.

(** The value written at [weatherData/metadata]. *)
Record run_summary (V : Type) := RunSummary {
  timeRange_endTime : Z;
  fetchedAt : Z;
  cachedAt : Z;
  sensorCount : nat;
  summary_latestValues : gmap string V;
}.
Arguments RunSummary {V} _ _ _ _ _.
Arguments sensorCount {V} _.
Arguments summary_latestValues {V} _.

(** The remote database, restricted to the four subtrees the script uses. *)
Record store (V : Type) := Store {
  sensorData : gmap string (sensor_log V);
  sensorMeta : gmap string (watermark V);
  weatherMetadata : option (run_summary V);
  weatherHistory : gmap Z (Z * gmap string V);
}.
Arguments Store {V} _ _ _ _.
Arguments sensorData {V} _.
Arguments sensorMeta {V} _.
Arguments weatherMetadata {V} _.
Arguments weatherHistory {V} _.

(** One entry of the [updates] object handed to [database.ref().update]:
    a path of the tree and the value set there. *)
Inductive write (V : Type) :=
  | WData (key : string) (index : Z) (r : reading V)
      (* sensorData/<key>/data/<index> *)
  | WRecordCount (key : string) (n : Z)
      (* sensorData/<key>/recordCount *)
  | WLastUpdated (key : string) (t : Z)
      (* sensorData/<key>/lastUpdated *)
  | WMeta (key : string) (w : watermark V).
      (* sensorMeta/<key> *)
Arguments WData {V} _ _ _.
Arguments WRecordCount {V} _ _.
Arguments WLastUpdated {V} _ _.
Arguments WMeta {V} _ _.

(** What one attempt of [fetchSensor] observes of the upstream API. *)
Inductive response (V : Type) :=
  | RateLimited
      (* response.status === 429 *)
  | Failure (message : string)
      (* fetch rejects, the status is not ok, or the body is not usable:
         every such case reaches the catch clause with a message *)
  | Success (records : list (Z * V)).
      (* data?.sensors?.[0]?.data?.[0]?.records || [] *)
Arguments RateLimited {V}.
Arguments Failure {V} _.
Arguments Success {V} _.

(** The object returned by [fetchSensor]. *)
Record fetch_result (V : Type) := FetchResult {
  result_sensorKey : string;
  result_data : list (reading V);
  result_error : option string;
}.
Arguments FetchResult {V} _ _ _.
Arguments result_sensorKey {V} _.
Arguments result_data {V} _.
Arguments result_error {V} _.

(** The inputs of a run that the script does not control. *)
Record env (V : Type) := Env {
  upstream : string → nat → response V;
      (* answer of the API to attempt number [n] for a sensor *)
  meta_read_fails : bool;
      (* database.ref('sensorMeta').once('value') rejects *)
  count_read_fails : string → bool;
      (* the read of sensorData/<key>/recordCount rejects *)
  update_fails : string → bool;
      (* database.ref().update(updates) rejects for this sensor *)
  metadata_write_fails : bool;
  history_write_fails : bool;
  clock : Z;
      (* Date.now(); its successive values only feed the lastUpdated,
         fetchedAt and cachedAt fields, which no property depends on.
         The window [startTime, endTime] of the requests only determines
         what upstream answers: it is part of [upstream]. *)
}.
Arguments Env {V} _ _ _ _ _ _ _.
Arguments upstream {V} _ _ _.
Arguments meta_read_fails {V} _.
Arguments count_read_fails {V} _ _.
Arguments update_fails {V} _ _.
Arguments metadata_write_fails {V} _.
Arguments history_write_fails {V} _.
Arguments clock {V} _.

(** ** The effect monad: database state, awaited delays, exceptions *)

Record world (V : Type) := World {
  db : store V;
  slept : list Z;   (* the delays awaited so far, oldest first *)
}.
Arguments World {V} _ _.
Arguments db {V} _.
Arguments slept {V} _.

Inductive outcome (A : Type) :=
  | Done (a : A)
  | Thrown (message : string).
Arguments Done {A} _.
Arguments Thrown {A} _.

Definition prog (V A : Type) : Type := world V → outcome A * world V.

Definition ret {V A} (a : A) : prog V A := λ w, (Done a, w).

Definition bind {V A B} (m : prog V A) (k : A → prog V B) : prog V B :=
  λ w, match m w with
       | (Done a, w') => k a w'
       | (Thrown e, w') => (Thrown e, w')
       end.

Definition throw {V A} (message : string) : prog V A :=
  λ w, (Thrown message, w).

Notation "x ←' m ; k" := (bind m (λ x, k))
  (at level 20, m at level 100, k at level 200, right associativity,
   format "'[' x  ←'  m ;  '/' k ']'").
Notation "m ;;' k" := (bind m (λ _, k))
  (at level 100, k at level 200, right associativity).

(** [const delay = (ms) => new Promise(...)], awaited. *)
Definition delay {V} (ms : Z) : prog V () :=
  λ w, (Done (), World (db w) (slept w ++ [ms])).

Definition get_db {V} : prog V (store V) := λ w, (Done (db w), w).
Definition put_db {V} (s : store V) : prog V () :=
  λ w, (Done (), World s (slept w)).

(** ** Configuration: the [SENSORS] table, in the order of [Object.keys] *)

Definition SENSORS : list (string * sensor_config) :=
  [ ("barometricPressure", SensorConfig "21956394-1" "Barometric Pressure" "mbar");
    ("precipitation", SensorConfig "21987752-1" "Precipitation" "mm");
    ("rainfall24hr", SensorConfig "21987752-2" "Rainfall (24-Hr)" "mm");
    ("rainfallWeekly", SensorConfig "21987752-3" "Rainfall (Weekly)" "mm");
    ("rainfallMonthly", SensorConfig "21987752-4" "Rainfall (Monthly)" "mm");
    ("waterLevel", SensorConfig "22054593-1" "Water Level" "m");
    ("diffPressure", SensorConfig "22054593-2" "Diff Pressure" "kPa");
    ("waterTemperature", SensorConfig "22054593-3" "Water Temperature" "°C");
    ("waterBaroPressure", SensorConfig "22054593-4" "Baro Pressure (Water)" "kPa");
    ("solarRadiation", SensorConfig "22430939-1" "Solar Radiation" "W/m²");
    ("temperature", SensorConfig "22442709-1" "Air Temperature" "°C");
    ("humidity", SensorConfig "22442709-2" "Relative Humidity" "%");
    ("dewPoint", SensorConfig "22442709-3" "Dew Point" "°C");
    ("windSpeed", SensorConfig "22447153-1" "Wind Speed" "m/s");
    ("gustSpeed", SensorConfig "22447153-2" "Gust Speed" "m/s");
    ("windDirection", SensorConfig "22447153-3" "Wind Direction" "°");
    ("evapotranspiration", SensorConfig "22462095-1" "Reference ET" "mm") ]%string.

Section Fetcher.
Context {V : Type}.

(** ** [fetchSensor] *)

(** The body of [for (let attempt = 0; attempt < retries; attempt++)],
    with [remaining = retries - attempt] iterations left.  When the loop
    runs out the function ends without a [return]: its value is
    [undefined]. *)
Fixpoint fetch_attempts (E : env V) (key : string) (cfg : sensor_config)
    (retries : nat) (remaining attempt : nat)
    : prog V (option (fetch_result V)) :=
  match remaining with
  | O => ret None
  | S remaining' =>
    match upstream E key attempt with
    | RateLimited =>
        let waitTime := (2 ^ Z.of_nat attempt * 2000)%Z in
        delay waitTime ;;'
        fetch_attempts E key cfg retries remaining' (S attempt)
    | Success records =>
        ret (Some (FetchResult key
               ((λ '(timestamp, value),
                   Reading timestamp value key (cfg_unit cfg)) <$> records)
               None))
    | Failure message =>
        if decide (Z.of_nat attempt = Z.of_nat retries - 1)%Z
        then ret (Some (FetchResult key [] (Some message)))
        else delay 1000 ;;'
             fetch_attempts E key cfg retries remaining' (S attempt)
    end
  end.

Definition fetchSensor (E : env V) (key : string) (cfg : sensor_config)
    (retries : nat) : prog V (option (fetch_result V)) :=
  fetch_attempts E key cfg retries retries 0.

(** ** The merge step of [main] *)

(** [lastTimestamps[sensorKey]?.lastTimestamp || 0]: an absent entry and
    a zero timestamp both give 0. *)
Definition lastTs_of_entry (entry : option (watermark V)) : Z :=
  match entry with
  | Some w => if decide (lastTimestamp w = 0%Z) then 0%Z else lastTimestamp w
  | None => 0%Z
  end.

Definition lastTs_of (lastTimestamps : gmap string (watermark V))
    (key : string) : Z :=
  lastTs_of_entry (lastTimestamps !! key).

(** [newRecords.filter(r => r.timestamp > lastTs)] *)
Definition newer_than (lastTs : Z) (newRecords : list (reading V))
    : list (reading V) :=
  filter (λ r, (lastTs < timestamp r)%Z) newRecords.

(** [Array.prototype.sort] with the comparator
    [(a, b) => a.timestamp - b.timestamp]: a stable sort, ascending by
    timestamp.  [insert_by_timestamp] puts [r] in front of the first
    element that is not earlier than it, so that readings with equal
    timestamps keep their relative order. *)
Fixpoint insert_by_timestamp (r : reading V) (l : list (reading V))
    : list (reading V) :=
  match l with
  | [] => [r]
  | x :: l' =>
      if decide (timestamp r ≤ timestamp x)%Z then r :: x :: l'
      else x :: insert_by_timestamp r l'
  end.

Fixpoint sort_by_timestamp (l : list (reading V)) : list (reading V) :=
  match l with
  | [] => []
  | r :: l' => insert_by_timestamp r (sort_by_timestamp l')
  end.

(** The filtered and then sorted [trulyNewRecords]. *)
Definition trulyNewRecords (lastTs : Z) (newRecords : list (reading V))
    : list (reading V) :=
  sort_by_timestamp (newer_than lastTs newRecords).

(** [newTimestamps[sensorKey]], built from
    [newestRecord = trulyNewRecords[trulyNewRecords.length - 1]]. *)
Definition newTimestamp_entry (now : Z) (newestRecord : reading V)
    : watermark V :=
  Watermark (timestamp newestRecord) (Some (value newestRecord)) now.

(** The merge step as a whole (lines 186 to 208): from the fetched
    readings and the sensor's entry of [lastTimestamps], the records to
    append and the entry of [sensorMeta] the sensor has once they are
    appended (the stored one when there is nothing to append). *)
Definition merge_step (now : Z) (newRecords : list (reading V))
    (entry : option (watermark V))
    : list (reading V) * option (watermark V) :=
  let increment := trulyNewRecords (lastTs_of_entry entry) newRecords in
  (increment,
   match last increment with
   | Some newestRecord => Some (newTimestamp_entry now newestRecord)
   | None => entry
   end).

(** ** The append step of [main] *)

(** [trulyNewRecords.forEach((record, idx) => updates[...] = record)]
    followed by the three metadata entries. *)
Definition build_updates (key : string) (currentCount : Z)
    (records : list (reading V)) (now : Z) (entry : watermark V)
    : list (write V) :=
  imap (λ idx record, WData key (currentCount + Z.of_nat idx)%Z record) records
  ++ [ WRecordCount key (currentCount + Z.of_nat (length records))%Z;
       WLastUpdated key now;
       WMeta key entry ].

Definition empty_log : sensor_log V := SensorLog ∅ None None.

Definition log_of (s : store V) (key : string) : sensor_log V :=
  default empty_log (sensorData s !! key).

Definition set_log (s : store V) (key : string) (l : sensor_log V)
    : store V :=
  Store (<[key := l]> (sensorData s)) (sensorMeta s)
        (weatherMetadata s) (weatherHistory s).

(** Setting one path of the tree. *)
Definition apply_write (s : store V) (u : write V) : store V :=
  match u with
  | WData key index r =>
      let l := log_of s key in
      set_log s key
        (SensorLog (<[index := r]> (data l)) (recordCount l) (logLastUpdated l))
  | WRecordCount key n =>
      let l := log_of s key in
      set_log s key (SensorLog (data l) (Some n) (logLastUpdated l))
  | WLastUpdated key t =>
      let l := log_of s key in
      set_log s key (SensorLog (data l) (recordCount l) (Some t))
  | WMeta key w =>
      Store (sensorData s) (<[key := w]> (sensorMeta s))
            (weatherMetadata s) (weatherHistory s)
  end.

(** [database.ref().update(updates)], when it succeeds. *)
Definition apply_updates (s : store V) (updates : list (write V)) : store V :=
  foldl apply_write s updates.

(** [countSnapshot.exists() ? countSnapshot.val() : 0] *)
Definition read_recordCount (s : store V) (key : string) : Z :=
  match sensorData s !! key ≫= recordCount with
  | Some c => c
  | None => 0%Z
  end.

(** ** The per-run accumulators of [main] *)

Record acc := Acc {
  latestValues : gmap string V;
  newTimestamps : gmap string (watermark V);
  totalNewRecords : nat;
  successfulSensors : nat;
}.

Definition acc_init : acc := Acc ∅ ∅ 0 0.

(** The try/catch around the append: a rejected read of the count or a
    rejected update is logged and leaves the accumulators as they are. *)
Definition append_step (E : env V) (key : string)
    (records : list (reading V)) (a : acc) : prog V acc :=
  if count_read_fails E key then ret a
  else
    s ←' get_db;
    let currentCount := read_recordCount s key in
    match newTimestamps a !! key with
    | None => ret a   (* an undefined value is rejected by update *)
    | Some entry =>
      let updates := build_updates key currentCount records (clock E) entry in
      if update_fails E key then ret a
      else
        put_db (apply_updates s updates) ;;'
        ret (Acc (latestValues a) (newTimestamps a)
                 (totalNewRecords a + length records)
                 (S (successfulSensors a)))
    end.

(** One iteration of the loop over [sensorKeys] (lines 164 to 240). *)
Definition process_sensor (E : env V)
    (lastTimestamps : gmap string (watermark V))
    (key : string) (cfg : sensor_config) (a : acc) : prog V acc :=
  let lastTs := lastTs_of lastTimestamps key in
  result ←' fetchSensor E key cfg 3;
  match result with
  | None =>
      throw "TypeError: Cannot read properties of undefined (reading 'data')"
  | Some result =>
    let newRecords := result_data result in
    if decide (length newRecords = 0) then
      let a' :=
        match lastTimestamps !! key ≫= latestValue with
        | Some v => Acc (<[key := v]> (latestValues a)) (newTimestamps a)
                        (totalNewRecords a) (S (successfulSensors a))
        | None => a
        end in
      delay 200 ;;' ret a'
    else
      let filtered := newer_than lastTs newRecords in
      if decide (length filtered = 0) then
        match last newRecords with
        | None => throw "TypeError: Cannot read properties of undefined (reading 'value')"
        | Some r =>
            delay 200 ;;'
            ret (Acc (<[key := value r]> (latestValues a)) (newTimestamps a)
                     (totalNewRecords a) (S (successfulSensors a)))
        end
      else
        let sorted := sort_by_timestamp filtered in
        match last sorted with
        | None => throw "TypeError: Cannot read properties of undefined (reading 'value')"
        | Some newestRecord =>
            let a1 :=
              Acc (<[key := value newestRecord]> (latestValues a))
                  (<[key := newTimestamp_entry (clock E) newestRecord]>
                     (newTimestamps a))
                  (totalNewRecords a) (successfulSensors a) in
            a2 ←' append_step E key sorted a1;
            delay 200 ;;' ret a2
        end
  end.

(** The loop [for (let i = 0; i < sensorKeys.length; i++)]. *)
Fixpoint process_all (E : env V) (lastTimestamps : gmap string (watermark V))
    (sensors : list (string * sensor_config)) (a : acc) : prog V acc :=
  match sensors with
  | [] => ret a
  | (key, cfg) :: rest =>
      a' ←' process_sensor E lastTimestamps key cfg a;
      process_all E lastTimestamps rest a'
  end.

(** The bulk read of [sensorMeta]; a rejected read is caught and leaves
    [lastTimestamps = {}]. *)
Definition read_lastTimestamps (E : env V)
    : prog V (gmap string (watermark V)) :=
  if meta_read_fails E then ret ∅
  else s ←' get_db; ret (sensorMeta s).

(** [main], from the read of the watermarks on (the checks of the
    environment variables before it are outside the engine).  Its result
    is the status passed to [process.exit]. *)
Definition main (E : env V) : prog V Z :=
  lastTimestamps ←' read_lastTimestamps E;
  a ←' process_all E lastTimestamps SENSORS acc_init;
  if metadata_write_fails E then ret 1%Z
  else
    s ←' get_db;
    put_db (Store (sensorData s) (sensorMeta s)
              (Some (RunSummary (clock E) (clock E) (clock E)
                       (successfulSensors a) (latestValues a)))
              (weatherHistory s)) ;;'
    (if history_write_fails E then ret ()
     else
       s ←' get_db;
       put_db (Store (sensorData s) (sensorMeta s) (weatherMetadata s)
                 (<[clock E := (clock E, latestValues a)]> (weatherHistory s)))) ;;'
    ret 0%Z.

(** [main().catch(error => process.exit(1))] *)
Definition script (E : env V) (w : world V) : Z * world V :=
  match main E w with
  | (Done code, w') => (code, w')
  | (Thrown _, w') => (1%Z, w')
  end.

End Fetcher.

Arguments acc : clear implicits.

(** ** Predicates used to state the properties *)

Section Predicates.
Context {V : Type}.

(** Ascending order of timestamps. *)
Definition ts_le (a b : reading V) : Prop := (timestamp a ≤ timestamp b)%Z.

(** The stored log of a sensor holds exactly the readings [rs], at the
    positions 0, 1, ... and [recordCount] is their number. *)
Definition log_holds (l : sensor_log V) (rs : list (reading V)) : Prop :=
  recordCount l = Some (Z.of_nat (length rs)) ∧
  (∀ i : nat, data l !! Z.of_nat i = rs !! i) ∧
  (∀ z : Z, (z < 0 ∨ Z.of_nat (length rs) ≤ z)%Z → data l !! z = None).

(** What the store holds for one sensor: its watermark and its log. *)
Definition sensor_state (s : store V) (key : string)
    : option (watermark V) * option (sensor_log V) :=
  (sensorMeta s !! key, sensorData s !! key).

(** [after] is [before] with a non-empty increment appended: the
    increment is a merge of some fetched readings against the watermark of
    [before], it sits at the positions from the former [recordCount] on,
    [recordCount] has grown by its length, the other positions are as
    before, and the watermark is that of its newest record. *)
Definition appended (now : Z)
    (before after : option (watermark V) * option (sensor_log V)) : Prop :=
  ∃ (fetched : list (reading V)) (newestRecord : reading V)
    (l' : sensor_log V),
    let increment := trulyNewRecords (lastTs_of_entry before.1) fetched in
    let c := default 0%Z (before.2 ≫= recordCount) in
    last increment = Some newestRecord ∧
    after.1 = Some (newTimestamp_entry now newestRecord) ∧
    after.2 = Some l' ∧
    recordCount l' = Some (c + Z.of_nat (length increment))%Z ∧
    (∀ (i : nat) r, increment !! i = Some r →
        data l' !! (c + Z.of_nat i)%Z = Some r) ∧
    (∀ z, (z < c ∨ c + Z.of_nat (length increment) ≤ z)%Z →
        data l' !! z = data (default empty_log before.2) !! z).

End Predicates.

(** ** Concrete inputs, used to run the program on examples *)

Module Examples.
Local Open Scope Z_scope.

Definition temperature_cfg : sensor_config :=
  SensorConfig "22442709-1" "Air Temperature" "°C".

(** An upstream that answers every attempt for [key] with [answer] and
    every attempt for another sensor with an empty list of records. *)
Definition upstream_for (key : string) (answer : response Z)
    : string → nat → response Z :=
  λ k _, if decide (k = key) then answer else Success [].

(** No failure of the database; the clock reads 5000. *)
Definition env_ok (up : string → nat → response Z) : env Z :=
  Env up false (λ _, false) (λ _, false) false false 5000.

(** The multi-location update is rejected for every sensor. *)
Definition env_update_fails (up : string → nat → response Z) : env Z :=
  Env up false (λ _, false) (λ _, true) false false 5000.

(** The bulk read of [sensorMeta] is rejected. *)
Definition env_meta_read_fails (up : string → nat → response Z) : env Z :=
  Env up true (λ _, false) (λ _, false) false false 5000.

(** A store in which the temperature sensor has one reading, at
    timestamp 100, and the matching watermark. *)
Definition store_100 : store Z :=
  Store {[ "temperature" :=
             SensorLog {[ 0%Z := Reading 100 21 "temperature" "°C" ]}
               (Some 1%Z) (Some 0%Z) ]}
        {[ "temperature" := Watermark 100 (Some 21%Z) 0 ]}
        None ∅.

(** A store in which the temperature sensor has a record count of 50
    (the readings themselves are not needed to append). *)
Definition store_50 : store Z :=
  Store {[ "temperature" := SensorLog ∅ (Some 50%Z) None ]} ∅ None ∅.

Definition empty_store : store Z := Store ∅ ∅ None ∅.

(** An upstream that answers 429 to every attempt for the first sensor of
    the table and returns one reading for every other sensor. *)
Definition upstream_first_rate_limited : string → nat → response Z :=
  λ k _, if decide (k = "barometricPressure") then RateLimited
         else Success [(110, 22)].

End Examples.

(** ** Further predicates and derived functions *)

Section MorePredicates.
Context {V : Type}.

(** The delay [fetchSensor] awaits after an attempt that does not end the
    loop: [Math.pow(2, attempt) * 2000] after a 429 (line 88), 1000 after
    any other failure (line 115). *)
Definition wait_after (r : response V) (attempt : nat) : Z :=
  match r with
  | RateLimited => (2 ^ Z.of_nat attempt * 2000)%Z
  | _ => 1000%Z
  end.

(** The readings a node [sensorData/<key>] stores, an absent node storing
    none. *)
Definition holds_readings (node : option (sensor_log V))
    (rs : list (reading V)) : Prop :=
  match node with
  | Some l => log_holds l rs
  | None => rs = []
  end.

(** The state of a sensor is consistent: its log is a sequence of readings
    sorted ascending by timestamp whose last reading, if any, carries the
    timestamp the watermark gives. *)
Definition consistent
    (st : option (watermark V) * option (sensor_log V)) : Prop :=
  ∃ rs, holds_readings st.2 rs ∧
        StronglySorted ts_le rs ∧
        ∀ r, last rs = Some r → timestamp r = lastTs_of_entry st.1.

(** An environment with the failure of the history write set to [b]. *)
Definition with_history_failure (E : env V) (b : bool) : env V :=
  Env (upstream E) (meta_read_fails E) (count_read_fails E) (update_fails E)
      (metadata_write_fails E) b (clock E).

(** Two environments give the sensor [key] the same answers from upstream,
    the same database failures and the same clock. *)
Definition agree_on (key : string) (E1 E2 : env V) : Prop :=
  (∀ n, upstream E1 key n = upstream E2 key n) ∧
  count_read_fails E1 key = count_read_fails E2 key ∧
  update_fails E1 key = update_fails E2 key ∧
  clock E1 = clock E2.

End MorePredicates.

Module MoreExamples.
Local Open Scope Z_scope.

(** An upstream that answers 429 to the first attempt, HTTP 500 to the
    second and two readings to every later one. *)
Definition upstream_third_try : string → nat → response Z :=
  λ _ n, match n with
         | O => RateLimited
         | S O => Failure "HTTP 500: Internal Server Error"
         | _ => Success [(110, 22); (120, 23)]
         end.

(** An upstream that returns one reading for the temperature sensor, one
    for the humidity sensor and none for the others. *)
Definition upstream_two_sensors : string → nat → response Z :=
  λ k _, if decide (k = "temperature") then Success [(110, 23)]
         else if decide (k = "humidity") then Success [(105, 60)]
         else Success [].

End MoreExamples.

(** ** The append mode that re-reads the stored log

    The earlier version of the script: for every sensor it downloads the
    whole stored log, drops the fetched readings whose timestamp is already
    stored, merges, sorts and writes the whole log back. *)

Module AppendMode.

(** The node [sensorData/<key>] as this version writes it. *)
Record sensor_node (V : Type) := SensorNode {
  data : list (reading V);
  lastUpdated : Z;
  recordCount : nat;
}.
Arguments SensorNode {V} _ _ _.
Arguments data {V} _.
Arguments lastUpdated {V} _.
Arguments recordCount {V} _.

Record store (V : Type) := Store {
  sensorData : gmap string (sensor_node V);
  weatherMetadata : option (run_summary V);
  weatherHistory : gmap Z (Z * gmap string V);
}.
Arguments Store {V} _ _ _.
Arguments sensorData {V} _.
Arguments weatherMetadata {V} _.
Arguments weatherHistory {V} _.

Record env (V : Type) := Env {
  upstream : string → nat → response V;
  existing_read_fails : string → bool;
      (* get(ref(database, 'sensorData/<key>/data')) rejects *)
  save_fails : string → bool;
      (* set(ref(database, 'sensorData/<key>'), ...) rejects *)
  metadata_write_fails : bool;
  history_write_fails : bool;
  clock : Z;
}.
Arguments Env {V} _ _ _ _ _ _.
Arguments upstream {V} _ _ _.
Arguments existing_read_fails {V} _ _.
Arguments save_fails {V} _ _.
Arguments metadata_write_fails {V} _.
Arguments history_write_fails {V} _.
Arguments clock {V} _.

Record world (V : Type) := World {
  db : store V;
  slept : list Z;
}.
Arguments World {V} _ _.
Arguments db {V} _.
Arguments slept {V} _.

Definition prog (V A : Type) : Type := world V → outcome A * world V.

Definition ret {V A} (a : A) : prog V A := λ w, (Done a, w).

Definition bind {V A B} (m : prog V A) (k : A → prog V B) : prog V B :=
  λ w, match m w with
       | (Done a, w') => k a w'
       | (Thrown e, w') => (Thrown e, w')
       end.

Definition throw {V A} (message : string) : prog V A :=
  λ w, (Thrown message, w).

Definition delay {V} (ms : Z) : prog V () :=
  λ w, (Done (), World (db w) (slept w ++ [ms])).

Definition get_db {V} : prog V (store V) := λ w, (Done (db w), w).
Definition put_db {V} (s : store V) : prog V () :=
  λ w, (Done (), World s (slept w)).

Section Script.
Context {V : Type}.

(** This file's copy of [fetchSensor]: the same retry loop. *)
Fixpoint fetch_attempts (E : env V) (key : string) (cfg : sensor_config)
    (retries : nat) (remaining attempt : nat)
    : prog V (option (fetch_result V)) :=
  match remaining with
  | O => ret None
  | S remaining' =>
    match upstream E key attempt with
    | RateLimited =>
        let waitTime := (2 ^ Z.of_nat attempt * 2000)%Z in
        bind (delay waitTime) (λ _,
        fetch_attempts E key cfg retries remaining' (S attempt))
    | Success records =>
        ret (Some (FetchResult key
               ((λ '(timestamp, value),
                   Reading timestamp value key (cfg_unit cfg)) <$> records)
               None))
    | Failure message =>
        if decide (Z.of_nat attempt = Z.of_nat retries - 1)%Z
        then ret (Some (FetchResult key [] (Some message)))
        else bind (delay 1000) (λ _,
             fetch_attempts E key cfg retries remaining' (S attempt))
    end
  end.

Definition fetchSensor (E : env V) (key : string) (cfg : sensor_config)
    (retries : nat) : prog V (option (fetch_result V)) :=
  fetch_attempts E key cfg retries retries 0.

(** The read of the stored log: [snapshot.exists() ? snapshot.val() || []
    : []], and [[]] when the read is rejected. *)
Definition read_existing (E : env V) (key : string) (s : store V)
    : list (reading V) :=
  if existing_read_fails E key then []
  else match sensorData s !! key with
       | Some node => data node
       | None => []
       end.

(** [new Set(existingData.map(r => r.timestamp))] *)
Definition existingTimestamps (existingData : list (reading V)) : gset Z :=
  list_to_set (timestamp <$> existingData).

(** [newRecords.filter(r => !existingTimestamps.has(r.timestamp))] *)
Definition trulyNewRecords (existingData newRecords : list (reading V))
    : list (reading V) :=
  filter (λ r, timestamp r ∉ existingTimestamps existingData) newRecords.

(** [[...existingData, ...trulyNewRecords]], sorted by timestamp. *)
Definition mergedData (existingData newRecords : list (reading V))
    : list (reading V) :=
  sort_by_timestamp (existingData ++ trulyNewRecords existingData newRecords).

Record acc := Acc {
  latestValues : gmap string V;
  totalNewRecords : nat;
  successfulSensors : nat;
}.

Definition acc_init : acc := Acc ∅ 0 0.

(** One iteration of the loop; [is_last] tells whether
    [i < sensorKeys.length - 1] fails. *)
Definition process_sensor (E : env V) (key : string) (cfg : sensor_config)
    (is_last : bool) (a : acc) : prog V acc :=
  bind (fetchSensor E key cfg 3) (λ result,
  match result with
  | None =>
      throw "TypeError: Cannot read properties of undefined (reading 'data')"
  | Some result =>
    let newRecords := result_data result in
    bind get_db (λ s,
    let existingData := read_existing E key s in
    let new := trulyNewRecords existingData newRecords in
    let merged := mergedData existingData newRecords in
    match last merged with
    | None =>
        (* mergedData.length is 0: nothing counted, nothing written *)
        bind (if is_last then ret () else delay 200) (λ _, ret a)
    | Some newest =>
        let a' := Acc (<[key := value newest]> (latestValues a))
                      (totalNewRecords a + length new)
                      (S (successfulSensors a)) in
        bind (if save_fails E key then ret ()
              else put_db (Store (<[key := SensorNode merged (clock E)
                                             (length merged)]>
                                    (sensorData s))
                             (weatherMetadata s) (weatherHistory s)))
             (λ _,
        bind (if is_last then ret () else delay 200) (λ _, ret a'))
    end)
  end).

(** The loop over [sensorKeys]. *)
Fixpoint process_all (E : env V) (sensors : list (string * sensor_config))
    (a : acc) : prog V acc :=
  match sensors with
  | [] => ret a
  | (key, cfg) :: rest =>
      bind (process_sensor E key cfg (bool_decide (rest = [])) a) (λ a',
      process_all E rest a')
  end.

End Script.

Arguments acc : clear implicits.

End AppendMode.

Module AppendExamples.
Local Open Scope Z_scope.

(** No failure of the database; the clock reads 5000. *)
Definition env_ok (up : string → nat → response Z) : AppendMode.env Z :=
  AppendMode.Env up (λ _, false) (λ _, false) false false 5000.

(** The read of the stored log is rejected for every sensor. *)
Definition env_read_fails (up : string → nat → response Z)
    : AppendMode.env Z :=
  AppendMode.Env up (λ _, true) (λ _, false) false false 5000.

(** The temperature sensor has one stored reading, at timestamp 100. *)
Definition store_100 : AppendMode.store Z :=
  AppendMode.Store
    {[ "temperature" :=
         AppendMode.SensorNode [Reading 100 21 "temperature" "°C"] 0 1 ]}
    None ∅.

End AppendExamples.

(** * Properties *)

Section Sorting.
Context {V : Type}.
Implicit Types (r x : reading V) (l : list (reading V)).

Lemma insert_by_timestamp_perm r l : insert_by_timestamp r l ≡ₚ r :: l.
Proof.
  induction l as [|x l IH]; simpl; [done|].
  case_decide; [done|]. rewrite IH. apply Permutation_swap.
Qed.

Lemma sort_by_timestamp_perm l : sort_by_timestamp l ≡ₚ l.
Proof.
  induction l as [|x l IH]; simpl; [done|].
  by rewrite insert_by_timestamp_perm, IH.
Qed.

Lemma insert_by_timestamp_sorted r l :
  StronglySorted ts_le l → StronglySorted ts_le (insert_by_timestamp r l).
Proof.
  induction l as [|x l IH]; simpl; intros Hs.
  - repeat constructor.
  - apply StronglySorted_cons in Hs as [Hx Hl].
    case_decide as Hle.
    + apply StronglySorted_cons. split.
      * constructor; [done|].
        eapply Forall_impl; [exact Hx|]. unfold ts_le. intros; lia.
      * by apply StronglySorted_cons.
    + apply StronglySorted_cons. split; [|by apply IH].
      rewrite insert_by_timestamp_perm. constructor; [|done].
      unfold ts_le. lia.
Qed.

Lemma sort_by_timestamp_sorted l : StronglySorted ts_le (sort_by_timestamp l).
Proof.
  induction l as [|x l IH]; simpl; [constructor|].
  by apply insert_by_timestamp_sorted.
Qed.

(** Stability: readings that share a timestamp keep their order. *)
Lemma insert_by_timestamp_stable (t : Z) r l :
  filter (λ x, timestamp x = t) (insert_by_timestamp r l)
  = filter (λ x, timestamp x = t) (r :: l).
Proof.
  induction l as [|x l IH]; simpl; [done|].
  case_decide as Hle; [done|].
  rewrite filter_cons, IH, !filter_cons.
  repeat case_decide; try done; lia.
Qed.

Lemma sort_by_timestamp_stable (t : Z) l :
  filter (λ x, timestamp x = t) (sort_by_timestamp l)
  = filter (λ x, timestamp x = t) l.
Proof.
  induction l as [|x l IH]; simpl; [done|].
  by rewrite insert_by_timestamp_stable, !filter_cons, IH.
Qed.

Lemma sort_by_timestamp_nil l : sort_by_timestamp l = [] ↔ l = [].
Proof.
  split; [|by intros ->].
  intros H. apply Permutation_nil_r. by rewrite <- H, sort_by_timestamp_perm.
Qed.

(** The last element of a sorted list carries the greatest timestamp. *)
Lemma sorted_last_max l x r :
  StronglySorted ts_le l → last l = Some x → r ∈ l → ts_le r x.
Proof.
  intros Hs [l' ->]%last_Some Hr.
  apply elem_of_app in Hr as [Hr|Hr].
  - eapply StronglySorted_app_1_elem_of; [done..|]. apply list_elem_of_singleton. done.
  - apply list_elem_of_singleton in Hr as ->. unfold ts_le. lia.
Qed.

(** An already sorted list is left as it is. *)
Lemma sort_by_timestamp_id l :
  StronglySorted ts_le l → sort_by_timestamp l = l.
Proof.
  induction 1 as [|x l Hl IH Hx]; simpl; [done|].
  rewrite IH. destruct l as [|y l]; simpl; [done|].
  apply Forall_cons in Hx as [Hxy _]. by rewrite decide_True.
Qed.

(** The result of a stable sort is determined by its specification: two
    lists sorted by timestamp that agree, for every timestamp, on the
    sequence of their readings with that timestamp are equal.  So
    [sort_by_timestamp] is the stable sort, whatever algorithm the engine
    runs. *)
Lemma stable_sorted_unique l1 l2 :
  StronglySorted ts_le l1 →
  StronglySorted ts_le l2 →
  (∀ t, filter (λ x, timestamp x = t) l1 = filter (λ x, timestamp x = t) l2) →
  l1 = l2.
Proof.
  assert (∀ l l' x, StronglySorted ts_le (x :: l) →
            (∀ t, filter (λ y, timestamp y = t) (x :: l)
                  = filter (λ y, timestamp y = t) l') →
            ∀ y, y ∈ l' → ts_le x y) as Hmin.
  { intros l l' x [Hx _]%StronglySorted_cons Hf y Hy.
    assert (y ∈ x :: l) as [->|Hy']%elem_of_cons.
    { eapply (list_elem_of_filter (λ z, timestamp z = timestamp y)).
      rewrite Hf. by apply list_elem_of_filter. }
    - unfold ts_le. lia.
    - rewrite Forall_forall in Hx. by apply Hx. }
  revert l2. induction l1 as [|x l1 IH]; intros l2 Hs1 Hs2 Hf.
  - destruct l2 as [|y l2]; [done|].
    specialize (Hf (timestamp y)). by rewrite filter_cons_True in Hf.
  - destruct l2 as [|y l2].
    { specialize (Hf (timestamp x)). by rewrite filter_cons_True in Hf. }
    assert (timestamp x = timestamp y) as Hxy.
    { pose proof (Hmin _ _ _ Hs1 Hf y (list_elem_of_here _ _)).
      pose proof (Hmin _ _ _ Hs2 (λ t, eq_sym (Hf t)) x (list_elem_of_here _ _)).
      unfold ts_le in *. lia. }
    pose proof (Hf (timestamp x)) as Hhead.
    rewrite !filter_cons_True in Hhead by done.
    injection Hhead as -> Htail. f_equal.
    apply StronglySorted_cons in Hs1 as [_ Hs1].
    apply StronglySorted_cons in Hs2 as [_ Hs2].
    apply IH; [done..|]. intros t.
    destruct (decide (t = timestamp y)) as [->|Hne]; [done|].
    specialize (Hf t). by rewrite !filter_cons_False in Hf.
Qed.

Lemma sort_by_timestamp_unique l l' :
  StronglySorted ts_le l' →
  (∀ t, filter (λ x, timestamp x = t) l' = filter (λ x, timestamp x = t) l) →
  l' = sort_by_timestamp l.
Proof.
  intros Hs Hf. apply stable_sorted_unique;
    [done|apply sort_by_timestamp_sorted|].
  intros t. by rewrite sort_by_timestamp_stable.
Qed.

End Sorting.

Section Merge.
Context {V : Type}.
Implicit Types (r x : reading V) (l fetched : list (reading V))
  (w : watermark V).

Lemma lastTs_of_entry_Some w : lastTs_of_entry (Some w) = lastTimestamp w.
Proof. unfold lastTs_of_entry. by case_decide. Qed.

Lemma trulyNewRecords_perm lastTs fetched :
  trulyNewRecords lastTs fetched
  ≡ₚ filter (λ r, (lastTs < timestamp r)%Z) fetched.
Proof. apply sort_by_timestamp_perm. Qed.

Lemma elem_of_trulyNewRecords lastTs fetched r :
  r ∈ trulyNewRecords lastTs fetched
  ↔ r ∈ fetched ∧ (lastTs < timestamp r)%Z.
Proof.
  rewrite trulyNewRecords_perm, list_elem_of_filter. tauto.
Qed.

Lemma trulyNewRecords_sorted lastTs fetched :
  StronglySorted ts_le (trulyNewRecords lastTs fetched).
Proof. apply sort_by_timestamp_sorted. Qed.

Lemma trulyNewRecords_nil lastTs fetched :
  trulyNewRecords lastTs fetched = [] ↔ newer_than lastTs fetched = [].
Proof. apply sort_by_timestamp_nil. Qed.

(** The newest record of a non-empty increment: it belongs to the
    increment and no record of the increment is later. *)
Lemma newestRecord_max lastTs fetched newest :
  last (trulyNewRecords lastTs fetched) = Some newest →
  newest ∈ fetched ∧ (lastTs < timestamp newest)%Z ∧
  ∀ r, r ∈ fetched → (lastTs < timestamp r)%Z →
       (timestamp r ≤ timestamp newest)%Z.
Proof.
  intros Hlast.
  pose proof (last_Some_elem_of _ _ Hlast) as Hin.
  apply elem_of_trulyNewRecords in Hin as [Hin Hgt].
  split_and!; [done..|]. intros r Hr Hr'.
  eapply (sorted_last_max _ newest r); [apply trulyNewRecords_sorted|done|].
  by apply elem_of_trulyNewRecords.
Qed.

(** With equal timestamps at the top, the newest record is the one that
    comes last in the fetched list. *)
Lemma newestRecord_last_of_ties lastTs fetched newest :
  last (trulyNewRecords lastTs fetched) = Some newest →
  last (filter (λ x, timestamp x = timestamp newest) fetched) = Some newest.
Proof.
  intros Hlast.
  destruct (newestRecord_max _ _ _ Hlast) as (_ & Hgt & _).
  assert (filter (λ x, timestamp x = timestamp newest) fetched
          = filter (λ x, timestamp x = timestamp newest)
              (trulyNewRecords lastTs fetched)) as ->.
  { unfold trulyNewRecords, newer_than.
    rewrite sort_by_timestamp_stable.
    clear Hlast. induction fetched as [|y l IH]; [done|].
    rewrite !filter_cons. repeat case_decide; rewrite ?filter_cons;
      repeat case_decide; try done; try lia. by rewrite IH. }
  apply last_Some in Hlast as [l' ->].
  rewrite filter_app, filter_cons_True, filter_nil by done.
  apply last_snoc.
Qed.

End Merge.

(** C1. For every fetched list and every watermark, the merge step selects
    exactly the readings whose timestamp is strictly greater than the
    watermark's [lastTimestamp] (same readings, same multiplicities), the
    increment is that selection sorted ascending by timestamp, and either
    the increment is empty and the watermark is kept, or the new watermark's
    [lastTimestamp] is the greatest timestamp of the increment and its
    [latestValue] is the value of a reading of the increment at that
    timestamp.  With watermark 100 and fetched (90,v1), (100,v2), (110,v3),
    (120,v4) the increment is (110,v3), (120,v4) and the new watermark is
    (120, v4). *)
Theorem merge_step_selects_sorts_advances {V : Type}
    (fetched : list (reading V)) (w : watermark V) (now : Z) :
  let increment := (merge_step now fetched (Some w)).1 in
  let newWatermark := (merge_step now fetched (Some w)).2 in
  (∀ r, r ∈ increment ↔ r ∈ fetched ∧ (lastTimestamp w < timestamp r)%Z) ∧
  increment ≡ₚ filter (λ r, (lastTimestamp w < timestamp r)%Z) fetched ∧
  StronglySorted ts_le increment ∧
  ((increment = [] ∧ newWatermark = Some w) ∨
   (∃ newest,
      newest ∈ increment ∧
      (∀ r, r ∈ increment → (timestamp r ≤ timestamp newest)%Z) ∧
      newWatermark
      = Some (Watermark (timestamp newest) (Some (value newest)) now))) ∧
  (∀ (v1 v2 v3 v4 : V) (k u : string) (old : option V) (t : Z),
     merge_step now
       [Reading 90 v1 k u; Reading 100 v2 k u;
        Reading 110 v3 k u; Reading 120 v4 k u]
       (Some (Watermark 100 old t))
     = ([Reading 110 v3 k u; Reading 120 v4 k u],
        Some (Watermark 120 (Some v4) now))).
Proof.
  intros increment newWatermark. subst increment newWatermark.
  unfold merge_step. rewrite lastTs_of_entry_Some. cbn [fst snd].
  split_and!.
  - intros r. apply elem_of_trulyNewRecords.
  - apply trulyNewRecords_perm.
  - apply trulyNewRecords_sorted.
  - destruct (last (trulyNewRecords (lastTimestamp w) fetched))
      as [newest|] eqn:Hlast.
    + right. exists newest. split_and!; [|intros r Hr|done].
      * by eapply last_Some_elem_of.
      * eapply (sorted_last_max _ newest r);
          [apply trulyNewRecords_sorted|done..].
    + left. by apply last_None in Hlast.
  - intros. reflexivity.
Qed.

(** ** The retry loop of [fetchSensor] *)

Section Fetch.
Context {V : Type}.
Implicit Types (E : env V) (w : world V).

Lemma world_eta w : World (db w) (slept w) = w.
Proof. by destruct w. Qed.

(** [fetchSensor] itself never throws and never touches the database; it
    only waits.  Its value may still be [undefined] ([None]). *)
Lemma fetch_attempts_runs E key cfg retries remaining attempt w :
  ∃ res ds,
    fetch_attempts E key cfg retries remaining attempt w
    = (Done res, World (db w) (slept w ++ ds)).
Proof.
  revert attempt w. induction remaining as [|n IH]; intros attempt w; simpl.
  - exists None, []. unfold ret. by rewrite app_nil_r, world_eta.
  - destruct (upstream E key attempt) as [|msg|records].
    + unfold bind, delay.
      destruct (IH (S attempt)
                  (World (db w) (slept w ++ [(2 ^ Z.of_nat attempt * 2000)%Z])))
        as (res & ds & ->). simpl.
      eexists res, (_ :: ds). by rewrite <- app_assoc.
    + case_decide.
      * eexists _, []. unfold ret. by rewrite app_nil_r, world_eta.
      * unfold bind, delay.
        destruct (IH (S attempt) (World (db w) (slept w ++ [1000%Z])))
          as (res & ds & ->). simpl.
        eexists res, (_ :: ds). by rewrite <- app_assoc.
    + eexists _, []. unfold ret. by rewrite app_nil_r, world_eta.
Qed.

Lemma fetchSensor_runs E key cfg retries w :
  ∃ res ds,
    fetchSensor E key cfg retries w
    = (Done res, World (db w) (slept w ++ ds)).
Proof. apply fetch_attempts_runs. Qed.

(** When every remaining attempt is answered by 429, the loop waits
    2000 * 2^attempt after each of them and ends without a result. *)
Lemma fetch_attempts_all_rate_limited E key cfg retries remaining attempt w :
  (∀ n, attempt ≤ n < attempt + remaining → upstream E key n = RateLimited) →
  fetch_attempts E key cfg retries remaining attempt w
  = (Done None,
     World (db w)
       (slept w ++ ((λ i, (2 ^ Z.of_nat i * 2000)%Z) <$> seq attempt remaining))).
Proof.
  revert attempt w.
  induction remaining as [|n IH]; intros attempt w Hup; simpl.
  - unfold ret. by rewrite app_nil_r, world_eta.
  - rewrite Hup by lia. unfold bind, delay.
    rewrite IH by (intros; apply Hup; lia). simpl.
    by rewrite <- app_assoc.
Qed.

(** When every attempt fails otherwise, the loop waits one second after
    each attempt but the last and returns the tagged empty result. *)
Lemma fetch_attempts_all_failed E key cfg retries remaining attempt w msg :
  attempt + remaining = retries →
  0 < remaining →
  (∀ n, attempt ≤ n < retries → upstream E key n = Failure msg) →
  fetch_attempts E key cfg retries remaining attempt w
  = (Done (Some (FetchResult key [] (Some msg))),
     World (db w) (slept w ++ replicate (remaining - 1) 1000%Z)).
Proof.
  revert attempt w.
  induction remaining as [|n IH]; intros attempt w Hsum Hpos Hup; [lia|].
  simpl. rewrite Hup by lia. case_decide as Hlast.
  - assert (n = 0) as -> by lia. unfold ret. simpl.
    by rewrite app_nil_r, world_eta.
  - unfold bind, delay.
    rewrite IH; [|lia|lia|intros; apply Hup; lia]. simpl.
    rewrite <- app_assoc. simpl.
    destruct n as [|n]; [lia|]. simpl. by rewrite Nat.sub_0_r.
Qed.

(** A first answer that is a success is returned at once, mapped to
    readings. *)
Lemma fetchSensor_first_success E key cfg retries records w :
  upstream E key 0 = Success records →
  fetchSensor E key cfg (S retries) w
  = (Done (Some (FetchResult key
             ((λ '(timestamp, value),
                 Reading timestamp value key (cfg_unit cfg)) <$> records)
             None)), w).
Proof. intros H. unfold fetchSensor. simpl. by rewrite H. Qed.

End Fetch.

(** ** The multi-location update of the append step *)

Section Append.
Context {V : Type}.
Implicit Types (s : store V) (records : list (reading V)) (E : env V).

Lemma read_recordCount_log_of s key :
  read_recordCount s key = default 0%Z (recordCount (log_of s key)).
Proof.
  unfold read_recordCount, log_of.
  destruct (sensorData s !! key) as [l|]; simpl; [|done].
  by destruct (recordCount l).
Qed.

Lemma log_of_set_log s key l : log_of (set_log s key l) key = l.
Proof. unfold log_of, set_log. simpl. by rewrite lookup_insert_eq. Qed.

Lemma sensorData_set_log_ne s key k l :
  k ≠ key → sensorData (set_log s key l) !! k = sensorData s !! k.
Proof. intros. unfold set_log. simpl. by rewrite lookup_insert_ne. Qed.

(** The entries [sensorData/<key>/data/<c + idx>] of the update. *)
Lemma data_writes s key (c : Z) records :
  let s' := foldl apply_write s
              (imap (λ idx record, WData key (c + Z.of_nat idx)%Z record)
                 records) in
  sensorMeta s' = sensorMeta s ∧
  weatherMetadata s' = weatherMetadata s ∧
  weatherHistory s' = weatherHistory s ∧
  (∀ k, k ≠ key → sensorData s' !! k = sensorData s !! k) ∧
  recordCount (log_of s' key) = recordCount (log_of s key) ∧
  (∀ (i : nat) r, records !! i = Some r →
      data (log_of s' key) !! (c + Z.of_nat i)%Z = Some r) ∧
  (∀ z, (z < c ∨ c + Z.of_nat (length records) ≤ z)%Z →
      data (log_of s' key) !! z = data (log_of s key) !! z).
Proof.
  induction records as [|x l IH] using rev_ind; simpl.
  - by split_and!.
  - rewrite imap_app, foldl_app. simpl.
    destruct IH as (Hm & Hw & Hh & Hk & Hc & Hin & Hout).
    set (s1 := foldl apply_write s _) in *.
    rewrite log_of_set_log. simpl.
    split_and!; try done.
    + intros k Hne. rewrite lookup_insert_ne by done. by apply Hk.
    + intros i r Hi.
      destruct (decide (i = length l)) as [->|Hne].
      * rewrite list_lookup_middle in Hi by done. simplify_eq.
        rewrite Nat.add_0_r. apply lookup_insert_eq.
      * rewrite lookup_app_l in Hi.
        2:{ apply lookup_lt_Some in Hi. rewrite length_app in Hi.
            simpl in Hi. lia. }
        rewrite lookup_insert_ne by lia. by apply Hin.
    + intros z Hz. rewrite length_app in Hz. simpl in Hz.
      rewrite lookup_insert_ne by lia. apply Hout. lia.
Qed.

(** The whole update built by the append step, described by what can be
    read back from the store afterwards. *)
Lemma apply_build_updates s key (c : Z) records now entry :
  let s' := apply_updates s (build_updates key c records now entry) in
  sensorMeta s' = <[key := entry]> (sensorMeta s) ∧
  weatherMetadata s' = weatherMetadata s ∧
  weatherHistory s' = weatherHistory s ∧
  (∀ k, k ≠ key → sensorData s' !! k = sensorData s !! k) ∧
  sensorData s' !! key = Some (log_of s' key) ∧
  recordCount (log_of s' key) = Some (c + Z.of_nat (length records))%Z ∧
  logLastUpdated (log_of s' key) = Some now ∧
  (∀ (i : nat) r, records !! i = Some r →
      data (log_of s' key) !! (c + Z.of_nat i)%Z = Some r) ∧
  (∀ z, (z < c ∨ c + Z.of_nat (length records) ≤ z)%Z →
      data (log_of s' key) !! z = data (log_of s key) !! z).
Proof.
  unfold apply_updates, build_updates. rewrite foldl_app.
  destruct (data_writes s key c records)
    as (Hm & Hw & Hh & Hk & Hc & Hin & Hout).
  set (s1 := foldl apply_write s _) in *. simpl.
  unfold log_of in *. simpl.
  repeat (rewrite !lookup_insert_eq; simpl).
  rewrite Hm. split_and!; try done.
  intros k Hne. rewrite !lookup_insert_ne by done. by apply Hk.
Qed.

(** Appending to a log that holds [rs] gives a log that holds [rs]
    followed by the appended records. *)
Lemma log_holds_append s key rs records now entry :
  log_holds (log_of s key) rs →
  log_holds
    (log_of (apply_updates s
               (build_updates key (read_recordCount s key) records now entry))
       key)
    (rs ++ records).
Proof.
  intros (Hc & Hin & Hout).
  rewrite read_recordCount_log_of, Hc. simpl.
  destruct (apply_build_updates s key (Z.of_nat (length rs)) records now entry)
    as (_ & _ & _ & _ & _ & Hc' & _ & Hin' & Hout').
  set (s' := apply_updates s _) in *.
  split_and!.
  - rewrite Hc', length_app. f_equal. lia.
  - intros i. destruct (decide (i < length rs)) as [Hlt|Hge].
    + rewrite lookup_app_l by done. rewrite Hout' by lia. apply Hin.
    + rewrite lookup_app_r by lia.
      destruct (records !! (i - length rs)) as [r|] eqn:Hr.
      * rewrite <- (Hin' _ _ Hr). f_equal. lia.
      * apply lookup_ge_None in Hr.
        rewrite Hout' by lia. apply Hout. lia.
  - intros z Hz. rewrite length_app in Hz.
    rewrite Hout' by lia. apply Hout. lia.
Qed.

End Append.

(** ** One iteration of the sensor loop, path by path *)

Section Iteration.
Context {V : Type}.
Implicit Types (E : env V) (w : world V) (a : acc V)
  (lts : gmap string (watermark V)) (res : fetch_result V).

Lemma append_step_ok E key records a w entry :
  count_read_fails E key = false →
  update_fails E key = false →
  newTimestamps a !! key = Some entry →
  append_step E key records a w
  = (Done (Acc (latestValues a) (newTimestamps a)
             (totalNewRecords a + length records) (S (successfulSensors a))),
     World (apply_updates (db w)
              (build_updates key (read_recordCount (db w) key) records
                 (clock E) entry))
           (slept w)).
Proof.
  intros Hc Hu He. unfold append_step, bind, get_db, put_db, ret.
  by rewrite Hc, He, Hu.
Qed.

Lemma append_step_fails E key records a w :
  count_read_fails E key = true ∨ update_fails E key = true →
  append_step E key records a w = (Done a, w).
Proof.
  intros H. unfold append_step, bind, get_db, put_db, ret.
  destruct (count_read_fails E key); [done|].
  destruct H as [?| ->]; [done|]. by destruct (newTimestamps a !! key).
Qed.

(** [fetchSensor] returned [undefined]: reading [result.data] throws. *)
Lemma process_sensor_undefined E lts key cfg a w w1 :
  fetchSensor E key cfg 3 w = (Done None, w1) →
  process_sensor E lts key cfg a w
  = (Thrown "TypeError: Cannot read properties of undefined (reading 'data')",
     w1).
Proof. intros H. unfold process_sensor, bind. by rewrite H. Qed.

(** No record from upstream: the stored latest value, if any, is kept. *)
Lemma process_sensor_no_records E lts key cfg a w w1 res :
  fetchSensor E key cfg 3 w = (Done (Some res), w1) →
  result_data res = [] →
  process_sensor E lts key cfg a w
  = (Done match lts !! key ≫= latestValue with
          | Some v => Acc (<[key := v]> (latestValues a)) (newTimestamps a)
                          (totalNewRecords a) (S (successfulSensors a))
          | None => a
          end,
     World (db w1) (slept w1 ++ [200%Z])).
Proof.
  intros H Hd. unfold process_sensor, bind. by rewrite H, Hd.
Qed.

(** Records from upstream, none of them new: the value of the last
    fetched record, in the order of the response, is reported. *)
Lemma process_sensor_nothing_new E lts key cfg a w w1 res :
  fetchSensor E key cfg 3 w = (Done (Some res), w1) →
  result_data res ≠ [] →
  newer_than (lastTs_of lts key) (result_data res) = [] →
  ∃ r, last (result_data res) = Some r ∧
    process_sensor E lts key cfg a w
    = (Done (Acc (<[key := value r]> (latestValues a)) (newTimestamps a)
               (totalNewRecords a) (S (successfulSensors a))),
       World (db w1) (slept w1 ++ [200%Z])).
Proof.
  intros H Hne Hnew.
  destruct (last (result_data res)) as [r|] eqn:Hlast;
    [|by apply last_None in Hlast].
  exists r. split; [done|].
  unfold process_sensor, bind. rewrite H. simpl.
  rewrite decide_False by (by destruct (result_data res)).
  rewrite Hnew. simpl. by rewrite Hlast.
Qed.

(** When upstream lists its records in ascending order of timestamps, the
    value reported on that path is the value of the last reading of the
    sorted list. *)
Lemma process_sensor_nothing_new_sorted E lts key cfg a w w1 res :
  fetchSensor E key cfg 3 w = (Done (Some res), w1) →
  result_data res ≠ [] →
  newer_than (lastTs_of lts key) (result_data res) = [] →
  StronglySorted ts_le (result_data res) →
  ∃ r, last (sort_by_timestamp (result_data res)) = Some r ∧
    process_sensor E lts key cfg a w
    = (Done (Acc (<[key := value r]> (latestValues a)) (newTimestamps a)
               (totalNewRecords a) (S (successfulSensors a))),
       World (db w1) (slept w1 ++ [200%Z])).
Proof.
  intros Hf Hne Hnew Hsorted. rewrite sort_by_timestamp_id by done.
  by apply process_sensor_nothing_new.
Qed.

(** New records: the accumulators as they are when the append is tried. *)
Lemma process_sensor_appends E lts key cfg a w w1 res :
  fetchSensor E key cfg 3 w = (Done (Some res), w1) →
  newer_than (lastTs_of lts key) (result_data res) ≠ [] →
  ∃ newestRecord,
    last (trulyNewRecords (lastTs_of lts key) (result_data res))
    = Some newestRecord ∧
    process_sensor E lts key cfg a w
    = (a2 ←' append_step E key
               (trulyNewRecords (lastTs_of lts key) (result_data res))
               (Acc (<[key := value newestRecord]> (latestValues a))
                    (<[key := newTimestamp_entry (clock E) newestRecord]>
                       (newTimestamps a))
                    (totalNewRecords a) (successfulSensors a));
       delay 200 ;;' ret a2) w1.
Proof.
  intros H Hnew. fold (trulyNewRecords (lastTs_of lts key) (result_data res)).
  destruct (last (trulyNewRecords (lastTs_of lts key) (result_data res)))
    as [newest|] eqn:Hlast.
  2:{ apply last_None, trulyNewRecords_nil in Hlast. done. }
  exists newest. split; [done|].
  unfold process_sensor. unfold bind at 1. rewrite H.
  assert (result_data res ≠ []) as Hne.
  { intros Hnil. by rewrite Hnil in Hnew. }
  rewrite decide_False by (by destruct (result_data res)).
  rewrite decide_False by (by destruct (newer_than _ _)).
  fold (trulyNewRecords (lastTs_of lts key) (result_data res)).
  by rewrite Hlast.
Qed.

End Iteration.

(** C4. For every sensor key, every increment of n readings and every
    current record count c, where c is the [recordCount] field stored under
    [sensorData/<key>] (0 when the node or the field is absent), a
    successful append step writes the i-th reading of the increment at
    position c + i of the sensor's log, leaves the positions outside
    c .. c+n-1 as they were and stores c + n in [recordCount].  The update it
    sends is built from the key, the increment, the clock, the new watermark
    and c alone: on any other state of the store with the same stored
    [recordCount] it sends the same update. *)
Theorem append_writes_at_recordCount {V : Type} (E : env V) (key : string)
    (increment : list (reading V)) (a : acc V) (w : world V)
    (stored : option Z) (entry : watermark V) :
  count_read_fails E key = false →
  update_fails E key = false →
  newTimestamps a !! key = Some entry →
  sensorData (db w) !! key ≫= recordCount = stored →
  let c := default 0%Z stored in
  ∃ a' w' l',
    append_step E key increment a w = (Done a', w') ∧
    sensorData (db w') !! key = Some l' ∧
    (∀ (i : nat) r, increment !! i = Some r →
        data l' !! (c + Z.of_nat i)%Z = Some r) ∧
    (∀ z, (z < c ∨ c + Z.of_nat (length increment) ≤ z)%Z →
        data l' !! z = sensorData (db w) !! key ≫= λ l, data l !! z) ∧
    recordCount l' = Some (c + Z.of_nat (length increment))%Z ∧
    db w' = apply_updates (db w)
              (build_updates key c increment (clock E) entry) ∧
    (∀ w2, sensorData (db w2) !! key ≫= recordCount = stored →
        db (append_step E key increment a w2).2
        = apply_updates (db w2)
            (build_updates key c increment (clock E) entry)).
Proof.
  intros Hc Hu He Hstored c.
  assert (∀ w0 : world V,
            sensorData (db w0) !! key ≫= recordCount = stored →
            read_recordCount (db w0) key = c) as Hread.
  { intros w0 H0. unfold read_recordCount. by rewrite H0. }
  rewrite (append_step_ok E key increment a w entry) by done.
  rewrite (Hread w Hstored).
  destruct (apply_build_updates (db w) key c increment (clock E) entry)
    as (_ & _ & _ & _ & Hkey & Hcnt & _ & Hin & Hout).
  eexists _, _, _. split; [done|]. cbn [db].
  split_and!; try done.
  - intros z Hz. rewrite (Hout z Hz). unfold log_of.
    by destruct (sensorData (db w) !! key).
  - intros w2 Hw2.
    rewrite (append_step_ok E key increment a w2 entry) by done.
    cbn [snd db]. by rewrite (Hread w2 Hw2).
Qed.

Section Idempotence.
Context {V : Type}.
Implicit Types (fetched : list (reading V)).

Lemma newer_than_nil lastTs fetched :
  (∀ r, r ∈ fetched → (timestamp r ≤ lastTs)%Z) →
  newer_than lastTs fetched = [].
Proof.
  unfold newer_than. induction fetched as [|x l IH]; intros H; [done|].
  rewrite filter_cons_False.
  - apply IH. intros r Hr. apply H. by right.
  - specialize (H x (list_elem_of_here _ _)). lia.
Qed.

(** Above the greatest timestamp of an increment nothing is left. *)
Lemma newer_than_newest lastTs fetched newest :
  last (trulyNewRecords lastTs fetched) = Some newest →
  newer_than (timestamp newest) fetched = [].
Proof.
  intros Hlast. destruct (newestRecord_max _ _ _ Hlast) as (_ & Hgt & Hmax).
  apply newer_than_nil. intros r Hr.
  destruct (decide (lastTs < timestamp r)%Z); [by apply Hmax|lia].
Qed.

(** An iteration whose increment is empty leaves the store as it is. *)
Lemma process_sensor_empty_increment (E : env V) lts key cfg a w w1 res :
  fetchSensor E key cfg 3 w = (Done (Some res), w1) →
  (merge_step (clock E) (result_data res) (lts !! key)).1 = [] →
  db (process_sensor E lts key cfg a w).2 = db w.
Proof.
  intros Hf Hinc. simpl in Hinc. apply trulyNewRecords_nil in Hinc.
  destruct (fetchSensor_runs E key cfg 3 w) as (res' & ds & Hf').
  rewrite Hf in Hf'. injection Hf' as _ ->.
  destruct (decide (result_data res = [])) as [Hnil|Hne].
  - by rewrite (process_sensor_no_records _ _ _ _ _ _ _ _ Hf Hnil).
  - destruct (process_sensor_nothing_new _ _ _ _ a _ _ _ Hf Hne Hinc)
      as (r & _ & ->). done.
Qed.

End Idempotence.

(** C2. Running the merge step a second time on the same fetched readings,
    against the watermark the first run left, yields an empty increment;
    and an iteration of the sensor loop that fetches these readings against
    that watermark writes nothing to the store, so no record is appended
    twice. *)
Theorem merge_step_twice_empty {V : Type} (fetched : list (reading V))
    (entry : option (watermark V)) (now now' : Z) :
  (merge_step now' fetched (merge_step now fetched entry).2).1 = [] ∧
  (∀ (E : env V) lts key cfg a w w1 res,
     fetchSensor E key cfg 3 w = (Done (Some res), w1) →
     result_data res = fetched →
     lts !! key = (merge_step now fetched entry).2 →
     db (process_sensor E lts key cfg a w).2 = db w).
Proof.
  assert (trulyNewRecords
            (lastTs_of_entry (merge_step now fetched entry).2) fetched = [])
    as Hempty.
  { unfold merge_step. cbn [snd].
    destruct (last (trulyNewRecords (lastTs_of_entry entry) fetched))
      as [newest|] eqn:Hlast.
    - rewrite lastTs_of_entry_Some. simpl.
      apply trulyNewRecords_nil. by eapply newer_than_newest.
    - by apply last_None in Hlast. }
  split; [exact Hempty|].
  intros E lts key cfg a w w1 res Hf Hres Hlts.
  eapply process_sensor_empty_increment; [done|].
  rewrite Hres, Hlts. exact Hempty.
Qed.

(** ** The effect of an iteration, and of the whole loop, on the store *)

Section Run.
Context {V : Type}.
Implicit Types (E : env V) (w : world V) (a : acc V)
  (lts : gmap string (watermark V)) (res : fetch_result V).

Lemma process_sensor_append_fails E lts key cfg a w w1 res :
  fetchSensor E key cfg 3 w = (Done (Some res), w1) →
  newer_than (lastTs_of lts key) (result_data res) ≠ [] →
  count_read_fails E key = true ∨ update_fails E key = true →
  ∃ newestRecord,
    last (trulyNewRecords (lastTs_of lts key) (result_data res))
    = Some newestRecord ∧
    process_sensor E lts key cfg a w
    = (Done (Acc (<[key := value newestRecord]> (latestValues a))
               (<[key := newTimestamp_entry (clock E) newestRecord]>
                  (newTimestamps a))
               (totalNewRecords a) (successfulSensors a)),
       World (db w1) (slept w1 ++ [200%Z])).
Proof.
  intros Hf Hnew Hfail.
  destruct (process_sensor_appends E lts key cfg a w w1 res Hf Hnew)
    as (newest & Hlast & ->).
  exists newest. split; [done|].
  unfold bind. by rewrite append_step_fails.
Qed.

Lemma process_sensor_append_ok E lts key cfg a w w1 res :
  fetchSensor E key cfg 3 w = (Done (Some res), w1) →
  newer_than (lastTs_of lts key) (result_data res) ≠ [] →
  count_read_fails E key = false →
  update_fails E key = false →
  ∃ newestRecord,
    let increment := trulyNewRecords (lastTs_of lts key) (result_data res) in
    last increment = Some newestRecord ∧
    process_sensor E lts key cfg a w
    = (Done (Acc (<[key := value newestRecord]> (latestValues a))
               (<[key := newTimestamp_entry (clock E) newestRecord]>
                  (newTimestamps a))
               (totalNewRecords a + length increment)
               (S (successfulSensors a))),
       World (apply_updates (db w1)
                (build_updates key (read_recordCount (db w1) key) increment
                   (clock E) (newTimestamp_entry (clock E) newestRecord)))
             (slept w1 ++ [200%Z])).
Proof.
  intros Hf Hnew Hc Hu.
  destruct (process_sensor_appends E lts key cfg a w w1 res Hf Hnew)
    as (newest & Hlast & ->).
  exists newest. split; [done|].
  unfold bind.
  erewrite append_step_ok; [done..|]. simpl. apply lookup_insert_eq.
Qed.

(** An iteration either leaves the store as it is or applies to it the
    update built from a non-empty increment. *)
Lemma process_sensor_db E lts key cfg a w :
  let w' := (process_sensor E lts key cfg a w).2 in
  db w' = db w ∨
  ∃ res newestRecord,
    let increment := trulyNewRecords (lastTs_of lts key) (result_data res) in
    (fetchSensor E key cfg 3 w).1 = Done (Some res) ∧
    last increment = Some newestRecord ∧
    count_read_fails E key = false ∧
    update_fails E key = false ∧
    db w' = apply_updates (db w)
              (build_updates key (read_recordCount (db w) key) increment
                 (clock E) (newTimestamp_entry (clock E) newestRecord)).
Proof.
  destruct (fetchSensor_runs E key cfg 3 w) as ([res|] & ds & Hf); simpl.
  2:{ rewrite (process_sensor_undefined _ _ _ _ _ _ _ Hf). by left. }
  destruct (decide (result_data res = [])) as [Hnil|Hne].
  { rewrite (process_sensor_no_records _ _ _ _ _ _ _ _ Hf Hnil). by left. }
  destruct (decide (newer_than (lastTs_of lts key) (result_data res) = []))
    as [Hold|Hnew].
  { destruct (process_sensor_nothing_new _ _ _ _ a _ _ _ Hf Hne Hold)
      as (r & _ & ->). by left. }
  destruct (count_read_fails E key) eqn:Hc.
  { destruct (process_sensor_append_fails _ _ _ _ a _ _ _ Hf Hnew
                (or_introl Hc)) as (r & _ & ->). by left. }
  destruct (update_fails E key) eqn:Hu.
  { destruct (process_sensor_append_fails _ _ _ _ a _ _ _ Hf Hnew
                (or_intror Hu)) as (r & _ & ->). by left. }
  destruct (process_sensor_append_ok _ _ _ _ a _ _ _ Hf Hnew Hc Hu)
    as (newest & Hlast & ->).
  right. exists res, newest. by rewrite Hf.
Qed.

(** The iteration runs the merge step: when the fetch returns a result and
    the database accepts the append, the sensor's entry of [sensorMeta]
    after the iteration is the watermark computed by [merge_step] from the
    fetched readings and the entry the run read, and the records written are
    its increment. *)
Lemma process_sensor_runs_merge_step E lts key cfg a w w1 res :
  fetchSensor E key cfg 3 w = (Done (Some res), w1) →
  count_read_fails E key = false →
  update_fails E key = false →
  lts !! key = sensorMeta (db w) !! key →
  let m := merge_step (clock E) (result_data res) (lts !! key) in
  let w' := (process_sensor E lts key cfg a w).2 in
  sensorMeta (db w') !! key = m.2 ∧
  (m.1 = [] ∧ db w' = db w ∨
   ∃ entry, m.2 = Some entry ∧
     db w' = apply_updates (db w)
               (build_updates key (read_recordCount (db w) key) m.1
                  (clock E) entry)).
Proof.
  intros Hf Hc Hu Hlts. cbv zeta. unfold merge_step. cbn [fst snd].
  fold (lastTs_of lts key).
  destruct (fetchSensor_runs E key cfg 3 w) as (res' & ds & Hf').
  rewrite Hf in Hf'. injection Hf' as _ ->.
  destruct (decide (newer_than (lastTs_of lts key) (result_data res) = []))
    as [Hold|Hnew].
  - pose proof Hold as Hinc. apply trulyNewRecords_nil in Hinc.
    rewrite Hinc. simpl.
    rewrite (process_sensor_empty_increment E lts key cfg a w _ res Hf)
      by done.
    split; [done|]. by left.
  - destruct (process_sensor_append_ok _ _ _ _ a _ _ _ Hf Hnew Hc Hu)
      as (newest & Hlast & ->).
    rewrite Hlast. cbn [snd db].
    destruct (apply_build_updates (db w) key (read_recordCount (db w) key)
                (trulyNewRecords (lastTs_of lts key) (result_data res))
                (clock E) (newTimestamp_entry (clock E) newest))
      as (-> & _).
    rewrite lookup_insert_eq. split; [done|]. right. by eexists.
Qed.

(** An iteration either leaves the sensor's part of the store as it is or
    appends a non-empty increment to it; it never touches the part of
    another sensor, the run metadata or the history. *)
Lemma process_sensor_step E lts key cfg a w :
  let w' := (process_sensor E lts key cfg a w).2 in
  (sensor_state (db w') key = sensor_state (db w) key ∨
   appended (clock E) (lts !! key, sensorData (db w) !! key)
     (sensor_state (db w') key)) ∧
  (∀ k, k ≠ key → sensor_state (db w') k = sensor_state (db w) k) ∧
  weatherMetadata (db w') = weatherMetadata (db w) ∧
  weatherHistory (db w') = weatherHistory (db w).
Proof.
  cbv zeta.
  destruct (process_sensor_db E lts key cfg a w)
    as [->|(res & newest & _ & Hlast & _ & _ & ->)].
  { split_and!; try done. by left. }
  set (increment := trulyNewRecords (lastTs_of lts key) (result_data res)) in *.
  destruct (apply_build_updates (db w) key (read_recordCount (db w) key)
              increment (clock E) (newTimestamp_entry (clock E) newest))
    as (Hm & Hwm & Hwh & Hk & Hkey & Hcnt & _ & Hin & Hout).
  set (s' := apply_updates (db w) _) in *.
  split_and!; try done.
  - right. exists (result_data res), newest, (log_of s' key).
    unfold sensor_state. cbn [fst snd].
    fold (read_recordCount (db w) key). fold (log_of (db w) key).
    split_and!; try done.
    rewrite Hm. apply lookup_insert_eq.
  - intros k Hk'. unfold sensor_state. rewrite Hm, Hk by done.
    by rewrite lookup_insert_ne.
Qed.

End Run.

Section Loop.
Context {V : Type}.
Implicit Types (E : env V) (w : world V) (a : acc V)
  (lts : gmap string (watermark V))
  (sensors : list (string * sensor_config)).

(** The loop leaves alone the sensors it does not iterate over. *)
Lemma process_all_other E lts sensors a w k :
  k ∉ sensors.*1 →
  sensor_state (db (process_all E lts sensors a w).2) k
  = sensor_state (db w) k.
Proof.
  revert a w. induction sensors as [|[key cfg] rest IH]; intros a w Hk;
    [done|].
  rewrite fmap_cons in Hk. apply not_elem_of_cons in Hk as [Hne Hk].
  simpl. unfold bind.
  destruct (process_sensor_step E lts key cfg a w) as (_ & Hother & _).
  destruct (process_sensor E lts key cfg a w) as [[a1|e] w1]; simpl in *.
  - rewrite IH by done. by apply Hother.
  - by apply Hother.
Qed.

(** Over distinct keys, the loop does to every sensor what one iteration
    does, against the sensor's entry of [lastTimestamps]. *)
Lemma process_all_step E lts sensors a w k :
  NoDup sensors.*1 →
  let w' := (process_all E lts sensors a w).2 in
  sensor_state (db w') k = sensor_state (db w) k ∨
  appended (clock E) (lts !! k, sensorData (db w) !! k)
    (sensor_state (db w') k).
Proof.
  revert a w. induction sensors as [|[key cfg] rest IH]; intros a w Hnd;
    [by left|].
  rewrite fmap_cons in Hnd. apply NoDup_cons in Hnd as [Hkey Hnd].
  simpl. unfold bind.
  destruct (process_sensor_step E lts key cfg a w) as (Hstep & Hother & _).
  destruct (process_sensor E lts key cfg a w) as [[a1|e] w1]; simpl in *.
  - destruct (decide (k = key)) as [->|Hne].
    + by rewrite process_all_other.
    + rewrite <- (Hother k) by done.
      assert (sensorData (db w) !! k = sensorData (db w1) !! k) as ->.
      { by injection (Hother k Hne) as _ ->. }
      by apply IH.
  - destruct (decide (k = key)) as [->|Hne]; [done|].
    left. by apply Hother.
Qed.

Lemma NoDup_SENSORS : NoDup SENSORS.*1.
Proof. apply (bool_decide_unpack (NoDup SENSORS.*1)). by vm_compute. Qed.

(** What [main] does after the loop only touches the run metadata and the
    history. *)
Lemma main_sensor_state E w k :
  sensor_state (db (main E w).2) k
  = sensor_state
      (db (process_all E (if meta_read_fails E then ∅ else sensorMeta (db w))
             SENSORS acc_init w).2) k.
Proof.
  unfold main, read_lastTimestamps. generalize SENSORS. intros sensors.
  destruct (meta_read_fails E); unfold bind, ret, get_db; simpl.
  all: match goal with
       | |- context [process_all ?e ?l ?ss acc_init ?w0] =>
           destruct (process_all e l ss acc_init w0) as [[a1|err] w1]
       end; simpl; [|done].
  all: destruct (metadata_write_fails E); [done|].
  all: by destruct (history_write_fails E).
Qed.

End Loop.

Section Monotone.
Context {V : Type}.

Lemma lastTs_of_entry_default (entry : option (watermark V)) :
  lastTs_of_entry entry = default 0%Z (lastTimestamp <$> entry).
Proof.
  destruct entry as [w|]; [|done]. simpl. by case_decide.
Qed.

Lemma script_world (E : env V) w : (script E w).2 = (main E w).2.
Proof. unfold script. by destruct (main E w) as [[?|?] ?]. Qed.

(** An append moves the watermark strictly forward. *)
Lemma appended_advances now
    (before after : option (watermark V) * option (sensor_log V)) :
  appended now before after →
  (default 0 (lastTimestamp <$> before.1)
   < default 0 (lastTimestamp <$> after.1))%Z.
Proof.
  intros (fetched & newest & l' & Hlast & Hafter & _).
  rewrite Hafter. simpl. rewrite <- lastTs_of_entry_default.
  by destruct (newestRecord_max _ _ _ Hlast) as (_ & Hgt & _).
Qed.

End Monotone.

(** C6 (as amended).  In every run, whatever the fetches and the appends
    do, the watermark and the log of a sensor are either both exactly as
    before the run, or a non-empty increment, merged against the sensor's
    watermark as the run read it at its start, was appended to the log and
    the watermark is that of its newest record.  In every run whose bulk
    read of the watermarks succeeds, the [lastTimestamp] of the sensor after
    the run (0 when the sensor has no watermark) is greater than or equal to
    its value before the run. *)
Theorem watermark_monotone_when_read_succeeds {V : Type} (E : env V)
    (w : world V) (key : string) :
  let before := sensor_state (db w) key in
  let after := sensor_state (db (script E w).2) key in
  let lastTimestamps := if meta_read_fails E then ∅ else sensorMeta (db w) in
  (after = before ∨
   appended (clock E) (lastTimestamps !! key, before.2) after) ∧
  (meta_read_fails E = false →
   (default 0 (lastTimestamp <$> before.1)
    ≤ default 0 (lastTimestamp <$> after.1))%Z).
Proof.
  intros before after lastTimestamps. subst before after lastTimestamps.
  rewrite script_world, main_sensor_state.
  pose proof (process_all_step E
                (if meta_read_fails E then ∅ else sensorMeta (db w))
                SENSORS acc_init w key NoDup_SENSORS) as Hstep.
  split; [exact Hstep|].
  intros Hread. rewrite Hread in *.
  destruct Hstep as [->|Happ]; [done|].
  apply (appended_advances _ (sensor_state (db w) key)) in Happ. lia.
Qed.

(** C6 as stated fails: when the bulk read of the watermarks is rejected
    the run starts from empty watermarks; with a stored watermark of 100
    and an upstream that returns the single reading (50, 19), the run
    appends it and leaves the watermark at 50. *)
Lemma watermark_regresses_after_failed_meta_read :
  let E := Examples.env_meta_read_fails
             (Examples.upstream_for "temperature" (Success [(50, 19)]%Z)) in
  let w := World Examples.store_100 [] in
  lastTimestamp <$> sensorMeta (db w) !! "temperature" = Some 100%Z ∧
  lastTimestamp <$> sensorMeta (db (script E w).2) !! "temperature"
  = Some 50%Z ∧
  (script E w).1 = 0%Z.
Proof. vm_compute. done. Qed.

(** C5 (as amended).  When the append of a sensor's increment fails (the
    read of the record count or the update is rejected), the iteration ends
    normally and the loop goes on with the next sensor; the store is exactly
    as before, so the sensor's watermark is not advanced; the counters of
    updated sensors and of new records are not incremented; the sensor's
    entry of [latestValues], set before the append is tried, holds the value
    of the newest fetched record. *)
Theorem failed_append_is_isolated {V : Type} (E : env V)
    (lts : gmap string (watermark V)) (key : string) (cfg : sensor_config)
    (rest : list (string * sensor_config)) (a : acc V) (w w1 : world V)
    (res : fetch_result V) :
  fetchSensor E key cfg 3 w = (Done (Some res), w1) →
  newer_than (lastTs_of lts key) (result_data res) ≠ [] →
  count_read_fails E key = true ∨ update_fails E key = true →
  ∃ newestRecord a' w',
    last (trulyNewRecords (lastTs_of lts key) (result_data res))
    = Some newestRecord ∧
    process_sensor E lts key cfg a w = (Done a', w') ∧
    db w' = db w ∧
    successfulSensors a' = successfulSensors a ∧
    totalNewRecords a' = totalNewRecords a ∧
    latestValues a' = <[key := value newestRecord]> (latestValues a) ∧
    process_all E lts ((key, cfg) :: rest) a w = process_all E lts rest a' w'.
Proof.
  intros Hf Hnew Hfail.
  destruct (process_sensor_append_fails E lts key cfg a w w1 res Hf Hnew Hfail)
    as (newest & Hlast & Hp).
  eexists newest, _, _. split; [done|]. split; [exact Hp|].
  destruct (fetchSensor_runs E key cfg 3 w) as (res' & ds & Hf').
  rewrite Hf in Hf'. injection Hf' as _ ->.
  split_and!; try done.
  simpl. unfold bind at 1. by rewrite Hp.
Qed.

(** C5 as stated fails: with a stored watermark (100, 21), an upstream that
    returns the reading (110, 23) and an update that is rejected, the
    watermark and the log stay as they were but the run summary reports 23
    as the sensor's latest value. *)
Lemma failed_append_still_reports_latest_value :
  let E := Examples.env_update_fails
             (Examples.upstream_for "temperature" (Success [(110, 23)]%Z)) in
  let w := World Examples.store_100 [] in
  update_fails E "temperature" = true ∧
  sensor_state (db (script E w).2) "temperature"
  = sensor_state (db w) "temperature" ∧
  (weatherMetadata (db (script E w).2)
     ≫= λ m, summary_latestValues m !! "temperature") = Some 23%Z ∧
  (sensorMeta (db w) !! "temperature" ≫= latestValue) = Some 21%Z.
Proof. vm_compute. done. Qed.

(** C7 (as amended).  Readings of one fetch that share a timestamp are not
    merged: for every timestamp, the increment holds all the fetched readings
    above the watermark that carry it, in the order of the fetch, so the
    increment is free of repeated timestamps exactly when the fetched
    readings above the watermark are.  The last one wins for the new
    watermark only: the newest record is the last fetched reading among
    those with the greatest timestamp. *)
Theorem increment_keeps_equal_timestamps {V : Type}
    (fetched : list (reading V)) (entry : option (watermark V)) (now t : Z) :
  let increment := (merge_step now fetched entry).1 in
  let selected := newer_than (lastTs_of_entry entry) fetched in
  filter (λ r, timestamp r = t) increment
  = filter (λ r, timestamp r = t) selected ∧
  (NoDup (timestamp <$> increment) ↔ NoDup (timestamp <$> selected)) ∧
  match last increment with
  | Some newestRecord =>
      last (filter (λ r, timestamp r = timestamp newestRecord) fetched)
      = Some newestRecord
  | None => increment = []
  end.
Proof.
  cbv zeta. unfold merge_step. cbn [fst].
  split_and!.
  - apply sort_by_timestamp_stable.
  - unfold trulyNewRecords. by rewrite sort_by_timestamp_perm.
  - destruct (last (trulyNewRecords (lastTs_of_entry entry) fetched))
      as [newest|] eqn:Hlast.
    + by eapply newestRecord_last_of_ties.
    + by apply last_None.
Qed.

(** C7 as stated fails: against a watermark of 100, a fetch that holds the
    readings (110, 22) and (110, 23) gives an increment that holds both. *)
Lemma increment_with_repeated_timestamp :
  let increment :=
    (merge_step 5000
       [Reading 110 22%Z "temperature" "°C"; Reading 110 23%Z "temperature" "°C"]
       (Some (Watermark 100 (Some 21%Z) 0))).1 in
  increment
  = [Reading 110 22%Z "temperature" "°C"; Reading 110 23%Z "temperature" "°C"] ∧
  ¬ NoDup (timestamp <$> increment).
Proof.
  split; [reflexivity|].
  intros [Hin _]%NoDup_cons. apply Hin. vm_compute. left.
Qed.

(** C8 as stated fails: the log holds one reading, at timestamp 100, which
    is the watermark; upstream returns (110, 22) and (110, 23); after the
    append the log holds two readings with timestamp 110. *)
Lemma appended_log_repeats_timestamp :
  let E := Examples.env_ok
             (Examples.upstream_for "temperature"
                (Success [(110, 22); (110, 23)]%Z)) in
  let w := World Examples.store_100 [] in
  let l := log_of (db (script E w).2) "temperature" in
  recordCount l = Some 3%Z ∧
  data l !! 0%Z = Some (Reading 100 21%Z "temperature" "°C") ∧
  data l !! 1%Z = Some (Reading 110 22%Z "temperature" "°C") ∧
  data l !! 2%Z = Some (Reading 110 23%Z "temperature" "°C").
Proof. vm_compute. done. Qed.

(** Order itself is kept only against the stored watermark: when the bulk
    read of the watermarks is rejected the run filters against 0, and a
    fetched reading at timestamp 50 is appended behind the stored reading at
    timestamp 100. *)
Lemma log_order_breaks_after_failed_meta_read :
  let E := Examples.env_meta_read_fails
             (Examples.upstream_for "temperature" (Success [(50, 19)]%Z)) in
  let w := World Examples.store_100 [] in
  let l := log_of (db (script E w).2) "temperature" in
  recordCount l = Some 2%Z ∧
  data l !! 0%Z = Some (Reading 100 21%Z "temperature" "°C") ∧
  data l !! 1%Z = Some (Reading 50 19%Z "temperature" "°C").
Proof. vm_compute. done. Qed.

Section Abort.
Context {V : Type}.
Implicit Types (E : env V) (w : world V) (a : acc V)
  (lts : gmap string (watermark V))
  (sensors : list (string * sensor_config)).

(** The loop never touches the run metadata or the history. *)
Lemma process_all_summary E lts sensors a w :
  weatherMetadata (db (process_all E lts sensors a w).2)
  = weatherMetadata (db w) ∧
  weatherHistory (db (process_all E lts sensors a w).2)
  = weatherHistory (db w).
Proof.
  revert a w. induction sensors as [|[key cfg] rest IH]; intros a w; [done|].
  simpl. unfold bind.
  destruct (process_sensor_step E lts key cfg a w) as (_ & _ & Hm & Hh).
  destruct (process_sensor E lts key cfg a w) as [[a1|e] w1]; simpl in *;
    [|done].
  destruct (IH a1 w1) as [-> ->]. done.
Qed.

(** An iteration that throws ends the loop: no later sensor is reached. *)
Lemma process_all_throws E lts sensors a w key :
  key ∈ sensors.*1 →
  (∀ cfg a w, ∃ e, (process_sensor E lts key cfg a w).1 = Thrown e) →
  ∃ e, (process_all E lts sensors a w).1 = Thrown e.
Proof.
  intros Hin Hthrow. revert a w Hin.
  induction sensors as [|[k cfg] rest IH]; intros a w Hin.
  { by apply elem_of_nil in Hin. }
  simpl. unfold bind.
  destruct (process_sensor E lts k cfg a w) as [[a1|e] w1] eqn:Hp;
    [|by exists e].
  rewrite fmap_cons in Hin. simpl in Hin.
  apply elem_of_cons in Hin as [->|Hin].
  - destruct (Hthrow cfg a w) as [e He]. by rewrite Hp in He.
  - by apply IH.
Qed.

(** When the loop throws, [main] rejects and the script exits with
    status 1 without writing the run summary. *)
Lemma script_aborts E w e :
  (process_all E (if meta_read_fails E then ∅ else sensorMeta (db w))
     SENSORS acc_init w).1 = Thrown e →
  (script E w).1 = 1%Z ∧
  weatherMetadata (db (script E w).2) = weatherMetadata (db w) ∧
  weatherHistory (db (script E w).2) = weatherHistory (db w).
Proof.
  unfold script, main, read_lastTimestamps. generalize SENSORS.
  intros sensors Hthrow.
  destruct (meta_read_fails E); unfold bind, ret, get_db; simpl.
  all: match goal with
       | |- context [process_all ?e ?l ?ss acc_init ?w0] =>
           pose proof (process_all_summary e l ss acc_init w0) as [Hm Hh];
           destruct (process_all e l ss acc_init w0) as [[a1|err] w1]
       end; simpl in *; done.
Qed.

End Abort.

(** C10. When every one of the [retries] attempts of [fetchSensor] is
    answered by HTTP 429, the function waits 2000 * 2^attempt after each
    attempt, leaves its loop and returns [undefined] instead of a result
    object.  In [main], which calls it with 3 retries, the iteration then
    throws on reading [result.data]; the throw is not caught in the loop, so
    for a sensor of the table the script exits with status 1 and the run
    summary and the history entry are not written. *)
Theorem rate_limit_exhaustion_aborts_run {V : Type} (E : env V)
    (key : string) (cfg : sensor_config) (retries : nat)
    (lts : gmap string (watermark V)) (a : acc V) (w : world V) :
  (∀ n, n < retries → upstream E key n = RateLimited) →
  fetchSensor E key cfg retries w
  = (Done None,
     World (db w)
       (slept w ++ ((λ i, (2 ^ Z.of_nat i * 2000)%Z) <$> seq 0 retries))) ∧
  (3 ≤ retries →
   process_sensor E lts key cfg a w
   = (Thrown "TypeError: Cannot read properties of undefined (reading 'data')",
      World (db w) (slept w ++ [2000; 4000; 8000]%Z)) ∧
   (key ∈ SENSORS.*1 →
    (script E w).1 = 1%Z ∧
    weatherMetadata (db (script E w).2) = weatherMetadata (db w) ∧
    weatherHistory (db (script E w).2) = weatherHistory (db w))).
Proof.
  intros Hup. split.
  { apply fetch_attempts_all_rate_limited. intros n Hn. apply Hup. lia. }
  intros Hretries.
  assert (∀ cfg' w', fetchSensor E key cfg' 3 w'
                = (Done None,
                   World (db w') (slept w' ++ [2000; 4000; 8000]%Z))) as Hf.
  { intros cfg' w'. unfold fetchSensor.
    rewrite fetch_attempts_all_rate_limited; [done|].
    intros n Hn. apply Hup. lia. }
  split.
  { by apply process_sensor_undefined. }
  intros Hkey.
  destruct (process_all_throws E
              (if meta_read_fails E then ∅ else sensorMeta (db w))
              SENSORS acc_init w key Hkey) as [e He].
  { intros cfg' a' w'. eexists.
    by rewrite (process_sensor_undefined _ _ _ _ _ _ _ (Hf cfg' w')). }
  by eapply script_aborts.
Qed.

(** C3, at the input on which the code departs from it: upstream answers
    HTTP 429 to all three attempts for the first sensor of the table and
    returns one new reading for every other sensor.  [fetchSensor] waits
    2000, 4000 and 8000 ms and returns [undefined], not an empty result
    tagged with an error; the script exits with status 1 and the store is
    still empty: no other sensor was processed. *)
Lemma fetchSensor_undefined_after_three_429 :
  let E := Examples.env_ok Examples.upstream_first_rate_limited in
  let w := World Examples.empty_store [] in
  fetchSensor E "barometricPressure"
    (SensorConfig "21956394-1" "Barometric Pressure" "mbar") 3 w
  = (Done None, World Examples.empty_store [2000; 4000; 8000]%Z) ∧
  script E w = (1%Z, World Examples.empty_store [2000; 4000; 8000]%Z).
Proof. vm_compute. done. Qed.

(** C9, at the input on which the code departs from it: the watermark is
    100 and upstream returns (100, 21) followed by (90, 20).  The increment
    is empty and the watermark is unchanged, but the latest value reported
    in the run summary is 20, the value of the last reading in the order of
    the response, while the last reading in ascending order of timestamps
    carries 21. *)
Lemma latest_value_of_unsorted_fetch :
  let fetched := [(100, 21); (90, 20)]%Z in
  let E := Examples.env_ok
             (Examples.upstream_for "temperature" (Success fetched)) in
  let w := World Examples.store_100 [] in
  let readings :=
    (λ '(t, v), Reading t v "temperature" "°C") <$> fetched in
  (merge_step (clock E) readings (sensorMeta (db w) !! "temperature")).1 = [] ∧
  sensor_state (db (script E w).2) "temperature"
  = sensor_state (db w) "temperature" ∧
  (weatherMetadata (db (script E w).2)
     ≫= λ m, summary_latestValues m !! "temperature") = Some 20%Z ∧
  value <$> last (sort_by_timestamp readings) = Some 21%Z.
Proof. vm_compute. done. Qed.

(** ** The theorems at concrete inputs *)

Lemma merge_step_twice_empty_witness :
  let fetched := [Reading 90 19%Z "temperature" "°C";
                  Reading 120 23%Z "temperature" "°C";
                  Reading 110 22%Z "temperature" "°C"] in
  let entry := Some (Watermark 100 (Some 21%Z) 0) in
  (merge_step 5000 fetched entry).1
  = [Reading 110 22%Z "temperature" "°C"; Reading 120 23%Z "temperature" "°C"] ∧
  (merge_step 6000 fetched (merge_step 5000 fetched entry).2).1 = [] ∧
  let E := Examples.env_ok
             (Examples.upstream_for "temperature"
                (Success [(90, 19); (120, 23); (110, 22)]%Z)) in
  let w := World Examples.store_100 [] in
  db (process_sensor E {[ "temperature" := Watermark 120 (Some 23%Z) 5000 ]}
        "temperature" Examples.temperature_cfg acc_init w).2 = db w.
Proof.
  intros fetched entry. split; [reflexivity|].
  destruct (merge_step_twice_empty fetched entry 5000 6000) as [H1 H2].
  split; [exact H1|]. intros E w.
  apply (H2 E _ "temperature" Examples.temperature_cfg acc_init w w
           (FetchResult "temperature" fetched None)); reflexivity.
Defined.

Lemma append_writes_at_recordCount_witness :
  let E := Examples.env_ok (Examples.upstream_for "temperature" (Success [])) in
  let r1 := Reading 110 22%Z "temperature" "°C" in
  let r2 := Reading 120 23%Z "temperature" "°C" in
  let entry := Watermark 120 (Some 23%Z) 5000 in
  let a := Acc ∅ {[ "temperature" := entry ]} 0 0 in
  let w := World Examples.store_50 [] in
  sensorData (db w) !! "temperature" ≫= recordCount = Some 50%Z ∧
  ∃ a' w' l',
    append_step E "temperature" [r1; r2] a w = (Done a', w') ∧
    sensorData (db w') !! "temperature" = Some l' ∧
    data l' !! 50%Z = Some r1 ∧
    data l' !! 51%Z = Some r2 ∧
    data l' !! 49%Z = None ∧
    recordCount l' = Some 52%Z.
Proof.
  intros E r1 r2 entry a w. split; [reflexivity|].
  destruct (append_writes_at_recordCount E "temperature" [r1; r2] a w
              (Some 50%Z) entry)
    as (a' & w' & l' & Hstep & Hnode & Hin & Hout & Hcount & _);
    [reflexivity..|].
  exists a', w', l'.
  exact (conj Hstep (conj Hnode (conj (Hin 0 r1 eq_refl)
           (conj (Hin 1 r2 eq_refl)
              (conj (Hout 49%Z (or_introl eq_refl)) Hcount))))).
Defined.

Lemma failed_append_is_isolated_witness :
  let E := Examples.env_update_fails
             (Examples.upstream_for "temperature" (Success [(110, 23)]%Z)) in
  let w := World Examples.store_100 [] in
  let lts := sensorMeta Examples.store_100 in
  update_fails E "temperature" = true ∧
  ∃ newestRecord a' w',
    process_sensor E lts "temperature" Examples.temperature_cfg acc_init w
    = (Done a', w') ∧
    db w' = db w ∧
    successfulSensors a' = 0 ∧
    totalNewRecords a' = 0 ∧
    value newestRecord = 23%Z ∧
    latestValues a' = {[ "temperature" := value newestRecord ]}.
Proof.
  intros E w lts. split; [reflexivity|].
  destruct (failed_append_is_isolated E lts "temperature"
              Examples.temperature_cfg [] acc_init w w
              (FetchResult "temperature"
                 [Reading 110 23%Z "temperature" "°C"] None))
    as (newest & a' & w' & Hlast & Hp & Hdb & Hs & Ht & Hl & _).
  - reflexivity.
  - vm_compute. discriminate.
  - right. reflexivity.
  - exists newest, a', w'. vm_compute in Hlast.
    injection Hlast as <-.
    exact (conj Hp (conj Hdb (conj Hs (conj Ht (conj eq_refl Hl))))).
Defined.

Lemma watermark_monotone_when_read_succeeds_witness :
  let E := Examples.env_ok
             (Examples.upstream_for "temperature" (Success [(110, 23)]%Z)) in
  let w := World Examples.store_100 [] in
  let before := sensor_state (db w) "temperature" in
  let after := sensor_state (db (script E w).2) "temperature" in
  meta_read_fails E = false ∧
  (after = before ∨
   appended (clock E) (sensorMeta (db w) !! "temperature", before.2) after) ∧
  (default 0 (lastTimestamp <$> before.1)
   ≤ default 0 (lastTimestamp <$> after.1))%Z.
Proof.
  intros E w before after. split; [reflexivity|].
  destruct (watermark_monotone_when_read_succeeds E w "temperature")
    as [Hstep Hmono].
  exact (conj Hstep (Hmono eq_refl)).
Defined.

Lemma store_100_log_holds :
  log_holds (log_of Examples.store_100 "temperature")
    [Reading 100 21%Z "temperature" "°C"].
Proof.
  split_and!.
  - reflexivity.
  - intros [|i]; [reflexivity|].
    change (data (log_of Examples.store_100 "temperature"))
      with ({[ 0%Z := Reading 100 21%Z "temperature" "°C" ]}
              : gmap Z (reading Z)).
    by rewrite lookup_singleton_ne by lia.
  - intros z Hz. simpl in Hz.
    change (data (log_of Examples.store_100 "temperature"))
      with ({[ 0%Z := Reading 100 21%Z "temperature" "°C" ]}
              : gmap Z (reading Z)).
    by rewrite lookup_singleton_ne by lia.
Defined.

Lemma rate_limit_exhaustion_aborts_run_witness :
  let E := Examples.env_ok Examples.upstream_first_rate_limited in
  let w := World Examples.empty_store [] in
  let cfg := SensorConfig "21956394-1" "Barometric Pressure" "mbar" in
  (∀ n, n < 3 → upstream E "barometricPressure" n = RateLimited) ∧
  fetchSensor E "barometricPressure" cfg 3 w
  = (Done None, World (db w) [2000; 4000; 8000]%Z) ∧
  process_sensor E ∅ "barometricPressure" cfg acc_init w
  = (Thrown "TypeError: Cannot read properties of undefined (reading 'data')",
     World (db w) [2000; 4000; 8000]%Z) ∧
  (script E w).1 = 1%Z ∧
  weatherMetadata (db (script E w).2) = None.
Proof.
  intros E w cfg.
  assert (∀ n, n < 3 → upstream E "barometricPressure" n = RateLimited)
    as Hup by (intros n _; reflexivity).
  split; [exact Hup|].
  destruct (rate_limit_exhaustion_aborts_run E "barometricPressure" cfg 3
              ∅ acc_init w Hup) as [Hf Hrun].
  destruct (Hrun (le_n 3)) as [Hp Hscript].
  destruct Hscript as (Hcode & Hmeta & _).
  { apply (bool_decide_unpack ("barometricPressure" ∈ SENSORS.*1)).
    vm_compute. exact I. }
  exact (conj Hf (conj Hp (conj Hcode Hmeta))).
Defined.

(** * Further properties of the script *)

(** ** [fetchSensor]: what it returns and how long it waits *)

Section FetchOutcome.
Context {V : Type}.
Implicit Types (E : env V) (w : world V).

Lemma fetch_attempts_only_waits E key cfg retries remaining attempt :
  ∃ res ds, ∀ w,
    fetch_attempts E key cfg retries remaining attempt w
    = (Done res, World (db w) (slept w ++ ds)).
Proof.
  revert attempt. induction remaining as [|n IH]; intros attempt; simpl.
  - exists None, []. intros w. unfold ret. by rewrite app_nil_r, world_eta.
  - destruct (upstream E key attempt) as [|msg|records].
    + destruct (IH (S attempt)) as (res & ds & Hrec).
      eexists res, (_ :: ds). intros w. unfold bind, delay.
      rewrite Hrec. simpl. by rewrite <- app_assoc.
    + case_decide.
      * eexists _, []. intros w. unfold ret. by rewrite app_nil_r, world_eta.
      * destruct (IH (S attempt)) as (res & ds & Hrec).
        eexists res, (_ :: ds). intros w. unfold bind, delay.
        rewrite Hrec. simpl. by rewrite <- app_assoc.
    + eexists _, []. intros w. unfold ret. by rewrite app_nil_r, world_eta.
Qed.

(** The result of [fetchSensor] does not depend on the world it runs in. *)
Lemma fetchSensor_result_indep E key cfg retries w w' :
  (fetchSensor E key cfg retries w).1 = (fetchSensor E key cfg retries w').1.
Proof.
  destruct (fetch_attempts_only_waits E key cfg retries retries 0)
    as (res & ds & H).
  unfold fetchSensor. by rewrite !H.
Qed.

Lemma fetch_attempts_undefined_iff E key cfg retries remaining attempt w :
  attempt + remaining = retries →
  (fetch_attempts E key cfg retries remaining attempt w).1 = Done None
  ↔ (∀ n records, attempt ≤ n < retries →
       upstream E key n ≠ Success records) ∧
    (remaining = 0 ∨ upstream E key (retries - 1) = RateLimited).
Proof.
  revert attempt w. induction remaining as [|r IH]; intros attempt w Hsum.
  - simpl. split; [|done]. intros _. split; [intros; lia|by left].
  - simpl. destruct (upstream E key attempt) as [|msg|records] eqn:Hup.
    + unfold bind, delay. rewrite IH by lia. split.
      * intros [Hns Hlast]. split.
        -- intros n records Hn. destruct (decide (n = attempt)) as [->|Hne].
           ++ by rewrite Hup.
           ++ apply Hns. lia.
        -- right. destruct Hlast as [->|Hlast]; [|done].
           by replace (retries - 1) with attempt by lia.
      * intros [Hns Hlast]. split; [intros; apply Hns; lia|].
        destruct Hlast as [?|Hlast]; [done|]. by right.
    + case_decide as Hl.
      * simpl. split; [done|]. intros [_ [?|Hlast]]; [done|].
        replace (retries - 1) with attempt in Hlast by lia. congruence.
      * unfold bind, delay. rewrite IH by lia. split.
        -- intros [Hns Hlast]. split.
           ++ intros n records Hn. destruct (decide (n = attempt)) as [->|Hne].
              ** by rewrite Hup.
              ** apply Hns. lia.
           ++ right. destruct Hlast as [->|Hlast]; [lia|done].
        -- intros [Hns Hlast]. split; [intros; apply Hns; lia|].
           destruct Hlast as [?|Hlast]; [done|]. by right.
    + simpl. split; [done|]. intros [Hns _].
      by destruct (Hns attempt records); [lia|].
Qed.

Lemma fetch_attempts_first_success E key cfg retries remaining attempt w
    (k : nat) records :
  attempt + remaining = retries →
  attempt ≤ k < retries →
  upstream E key k = Success records →
  (∀ n records', attempt ≤ n < k → upstream E key n ≠ Success records') →
  fetch_attempts E key cfg retries remaining attempt w
  = (Done (Some (FetchResult key
             ((λ '(timestamp, value),
                 Reading timestamp value key (cfg_unit cfg)) <$> records)
             None)),
     World (db w)
       (slept w ++ ((λ n, wait_after (upstream E key n) n)
                      <$> seq attempt (k - attempt)))).
Proof.
  revert attempt w.
  induction remaining as [|r IH]; intros attempt w Hsum Hk Hup Hns; [lia|].
  simpl. destruct (decide (k = attempt)) as [->|Hne].
  - rewrite Hup. replace (attempt - attempt) with 0 by lia. simpl.
    unfold ret. by rewrite app_nil_r, world_eta.
  - replace (k - attempt) with (S (k - S attempt)) by lia. simpl.
    destruct (upstream E key attempt) as [|msg|records'] eqn:Ha.
    + unfold bind, delay.
      rewrite IH; [|lia|lia|done|intros; apply Hns; lia].
      simpl. by rewrite <- app_assoc.
    + rewrite decide_False by lia.
      unfold bind, delay.
      rewrite IH; [|lia|lia|done|intros; apply Hns; lia].
      simpl. by rewrite <- app_assoc.
    + by destruct (Hns attempt records'); [lia|].
Qed.

End FetchOutcome.

Section FetchError.
Context {V : Type}.
Implicit Types (E : env V) (w : world V).

Lemma fetch_attempts_error_iff E key cfg retries remaining attempt w msg :
  attempt + remaining = retries →
  (fetch_attempts E key cfg retries remaining attempt w).1
  = Done (Some (FetchResult key [] (Some msg)))
  ↔ 0 < remaining ∧
    upstream E key (retries - 1) = Failure msg ∧
    (∀ n records, attempt ≤ n < retries - 1 →
       upstream E key n ≠ Success records).
Proof.
  revert attempt w. induction remaining as [|r IH]; intros attempt w Hsum.
  - simpl. split; [done|]. intros [? _]. lia.
  - simpl. destruct (upstream E key attempt) as [|m|records] eqn:Hup.
    + unfold bind, delay. rewrite IH by lia. split.
      * intros (Hr & Hlast & Hns). split_and!; [lia|done|].
        intros n records Hn. destruct (decide (n = attempt)) as [->|Hne].
        -- by rewrite Hup.
        -- apply Hns. lia.
      * intros (_ & Hlast & Hns).
        destruct r as [|r].
        { replace (retries - 1) with attempt in Hlast by lia. congruence. }
        split_and!; [lia|done|]. intros; apply Hns; lia.
    + case_decide as Hl.
      * simpl. replace (retries - 1) with attempt by lia. rewrite Hup.
        split.
        -- intros [= ->]. split_and!; [lia|done|]. intros; lia.
        -- by intros (_ & [= ->] & _).
      * unfold bind, delay. rewrite IH by lia. split.
        -- intros (Hr & Hlast & Hns). split_and!; [lia|done|].
           intros n records Hn. destruct (decide (n = attempt)) as [->|Hne].
           ++ by rewrite Hup.
           ++ apply Hns. lia.
        -- intros (_ & Hlast & Hns). split_and!; [lia|done|].
           intros; apply Hns; lia.
    + simpl. split; [done|]. intros (_ & Hlast & Hns).
      destruct (decide (attempt = retries - 1)) as [Heq|Hne].
      * rewrite <- Heq in Hlast. congruence.
      * by destruct (Hns attempt records); [lia|].
Qed.

Lemma fetch_attempts_wait_bound E key cfg retries remaining attempt w :
  ∃ ds,
    slept (fetch_attempts E key cfg retries remaining attempt w).2
    = slept w ++ ds ∧
    length ds ≤ remaining ∧
    (0 ≤ foldr Z.add 0 ds
     ≤ 2000 * (2 ^ Z.of_nat (attempt + remaining) - 2 ^ Z.of_nat attempt))%Z.
Proof.
  assert (∀ a r, (0 < 2 ^ Z.of_nat a ≤ 2 ^ Z.of_nat (a + r))%Z) as Hpow.
  { intros a r. split; [by apply Z.pow_pos_nonneg; lia|].
    apply Z.pow_le_mono_r; lia. }
  assert (∀ a, (2 ^ Z.of_nat (S a) = 2 * 2 ^ Z.of_nat a)%Z) as Hsucc.
  { intros a. rewrite Nat2Z.inj_succ. apply Z.pow_succ_r. lia. }
  revert attempt w. induction remaining as [|r IH]; intros attempt w.
  - exists []. simpl. rewrite app_nil_r, Nat.add_0_r.
    split; [done|]. split; lia.
  - simpl. destruct (upstream E key attempt) as [|m|records].
    + unfold bind, delay.
      destruct (IH (S attempt)
                  (World (db w)
                     (slept w ++ [(2 ^ Z.of_nat attempt * 2000)%Z])))
        as (ds & Hs & Hl & Hsum).
      destruct (fetch_attempts _ _ _ _ r (S attempt) _) as [o w1].
      simpl in *. eexists (_ :: ds). rewrite Hs, <- app_assoc.
      split; [done|]. split; [simpl; lia|]. simpl.
      replace (attempt + S r) with (S (attempt + r)) by lia.
      pose proof (Hpow attempt r). rewrite !Hsucc in *. lia.
    + case_decide.
      * exists []. simpl. rewrite app_nil_r.
        pose proof (Hpow attempt (S r)).
        split; [done|]. split; [lia|]. simpl. lia.
      * unfold bind, delay.
        destruct (IH (S attempt) (World (db w) (slept w ++ [1000%Z])))
          as (ds & Hs & Hl & Hsum).
        destruct (fetch_attempts _ _ _ _ r (S attempt) _) as [o w1].
        simpl in *. eexists (_ :: ds). rewrite Hs, <- app_assoc.
        split; [done|]. split; [simpl; lia|]. simpl.
        replace (attempt + S r) with (S (attempt + r)) by lia.
        pose proof (Hpow attempt r). rewrite !Hsucc in *. lia.
    + exists []. simpl. rewrite app_nil_r.
      pose proof (Hpow attempt (S r)).
      split; [done|]. split; [lia|]. simpl. lia.
Qed.

End FetchError.

(** X1. Whatever upstream answers and however many retries are allowed,
    [fetchSensor] never throws and never writes to the store: it only waits,
    and its result and the delays it awaits are the same in every state of
    the store. *)
Theorem fetchSensor_only_waits {V : Type} (E : env V) (key : string)
    (cfg : sensor_config) (retries : nat) :
  ∃ res ds, ∀ w,
    fetchSensor E key cfg retries w
    = (Done res, World (db w) (slept w ++ ds)).
Proof. apply fetch_attempts_only_waits. Qed.

(** X2. [fetchSensor] returns [undefined] exactly when no attempt is
    answered with a success and either no attempt is made ([retries] is 0)
    or the last attempt is answered by HTTP 429. *)
Theorem fetchSensor_undefined_iff {V : Type} (E : env V) (key : string)
    (cfg : sensor_config) (retries : nat) (w : world V) :
  (fetchSensor E key cfg retries w).1 = Done None
  ↔ (∀ n records, n < retries → upstream E key n ≠ Success records) ∧
    (retries = 0 ∨ upstream E key (retries - 1) = RateLimited).
Proof.
  unfold fetchSensor. rewrite fetch_attempts_undefined_iff by done.
  split; intros [Hns Hlast]; (split; [|done]); intros n records Hn;
    apply Hns; lia.
Qed.

(** X3. The first attempt answered with a success decides the result: its
    records are returned in their order, each as a reading carrying the
    sensor's key and unit, with no error; before it [fetchSensor] has waited
    2000 * 2^n ms after each attempt n answered by 429 and 1000 ms after
    each attempt that failed otherwise. *)
Theorem fetchSensor_returns_first_success {V : Type} (E : env V) (key : string)
    (cfg : sensor_config) (retries k : nat) (records : list (Z * V))
    (w : world V) :
  k < retries →
  upstream E key k = Success records →
  (∀ n records', n < k → upstream E key n ≠ Success records') →
  fetchSensor E key cfg retries w
  = (Done (Some (FetchResult key
             ((λ '(timestamp, value),
                 Reading timestamp value key (cfg_unit cfg)) <$> records)
             None)),
     World (db w)
       (slept w ++ ((λ n, wait_after (upstream E key n) n) <$> seq 0 k))).
Proof.
  intros Hk Hup Hns. unfold fetchSensor.
  rewrite (fetch_attempts_first_success E key cfg retries retries 0 w k records);
    [|lia|lia|done|intros; apply Hns; lia].
  by rewrite Nat.sub_0_r.
Qed.

(** X4. [fetchSensor] returns the empty result tagged with an error exactly
    when its last attempt fails otherwise than by a 429 and no earlier
    attempt is answered with a success; the error is the message of that
    last attempt. *)
Theorem fetchSensor_error_iff {V : Type} (E : env V) (key : string)
    (cfg : sensor_config) (retries : nat) (w : world V) (msg : string) :
  (fetchSensor E key cfg retries w).1
  = Done (Some (FetchResult key [] (Some msg)))
  ↔ 0 < retries ∧
    upstream E key (retries - 1) = Failure msg ∧
    (∀ n records, n < retries - 1 → upstream E key n ≠ Success records).
Proof.
  unfold fetchSensor. rewrite fetch_attempts_error_iff by done.
  split; intros (Hr & Hlast & Hns); (split_and!; [done..|]);
    intros n records Hn; apply Hns; lia.
Qed.

(** X5. [fetchSensor] waits at most [retries] times and, in total, at most
    2000 * (2^retries - 1) ms. *)
Theorem fetchSensor_wait_bound {V : Type} (E : env V) (key : string)
    (cfg : sensor_config) (retries : nat) (w : world V) :
  ∃ ds,
    slept (fetchSensor E key cfg retries w).2 = slept w ++ ds ∧
    length ds ≤ retries ∧
    (0 ≤ foldr Z.add 0 ds ≤ 2000 * (2 ^ Z.of_nat retries - 1))%Z.
Proof.
  destruct (fetch_attempts_wait_bound E key cfg retries retries 0 w)
    as (ds & Hs & Hl & Hsum).
  exists ds. split; [done|]. split; [done|]. simpl in Hsum. lia.
Qed.

(** ** The iteration and the loop, seen from the accumulators *)

Section Cases.
Context {V : Type}.
Implicit Types (E : env V) (w : world V) (a : acc V)
  (lts : gmap string (watermark V)).

(** Every delay of [fetchSensor] lasts at least one second. *)
Lemma fetch_attempts_waits E key cfg retries remaining attempt :
  ∃ res ds,
    Forall (λ d, (1000 ≤ d)%Z) ds ∧
    ∀ w, fetch_attempts E key cfg retries remaining attempt w
         = (Done res, World (db w) (slept w ++ ds)).
Proof.
  assert (∀ n, (1000 ≤ 2 ^ Z.of_nat n * 2000)%Z) as Hpow.
  { intros n. assert (0 < 2 ^ Z.of_nat n)%Z by (apply Z.pow_pos_nonneg; lia).
    lia. }
  revert attempt. induction remaining as [|n IH]; intros attempt; simpl.
  - exists None, []. split; [done|]. intros w. unfold ret.
    by rewrite app_nil_r, world_eta.
  - destruct (upstream E key attempt) as [|msg|records].
    + destruct (IH (S attempt)) as (res & ds & Hds & Hrec).
      exists res, ((2 ^ Z.of_nat attempt * 2000)%Z :: ds).
      split; [constructor; [apply Hpow|done]|].
      intros w. unfold bind, delay. rewrite Hrec. simpl.
      by rewrite <- app_assoc.
    + case_decide.
      * eexists _, []. split; [done|]. intros w. unfold ret.
        by rewrite app_nil_r, world_eta.
      * destruct (IH (S attempt)) as (res & ds & Hds & Hrec).
        exists res, (1000%Z :: ds). split; [constructor; [lia|done]|].
        intros w. unfold bind, delay. rewrite Hrec. simpl.
        by rewrite <- app_assoc.
    + eexists _, []. split; [done|]. intros w. unfold ret.
      by rewrite app_nil_r, world_eta.
Qed.

(** The five ways an iteration can go. *)
Lemma process_sensor_cases E lts key cfg a w :
  ∃ res ds,
    Forall (λ d, (1000 ≤ d)%Z) ds ∧
    (∀ w0, fetchSensor E key cfg 3 w0
           = (Done res, World (db w0) (slept w0 ++ ds))) ∧
    match res with
    | None =>
        process_sensor E lts key cfg a w
        = (Thrown
             "TypeError: Cannot read properties of undefined (reading 'data')",
           World (db w) (slept w ++ ds))
    | Some r =>
        let fetched := result_data r in
        let increment := trulyNewRecords (lastTs_of lts key) fetched in
        (fetched = [] ∧
         process_sensor E lts key cfg a w
         = (Done match lts !! key ≫= latestValue with
                 | Some v =>
                     Acc (<[key := v]> (latestValues a)) (newTimestamps a)
                         (totalNewRecords a) (S (successfulSensors a))
                 | None => a
                 end,
            World (db w) (slept w ++ ds ++ [200%Z]))) ∨
        (fetched ≠ [] ∧ increment = [] ∧
         ∃ x, last fetched = Some x ∧
           process_sensor E lts key cfg a w
           = (Done (Acc (<[key := value x]> (latestValues a))
                      (newTimestamps a) (totalNewRecords a)
                      (S (successfulSensors a))),
              World (db w) (slept w ++ ds ++ [200%Z]))) ∨
        (∃ newest,
           last increment = Some newest ∧
           (count_read_fails E key = true ∨ update_fails E key = true) ∧
           process_sensor E lts key cfg a w
           = (Done (Acc (<[key := value newest]> (latestValues a))
                      (<[key := newTimestamp_entry (clock E) newest]>
                         (newTimestamps a))
                      (totalNewRecords a) (successfulSensors a)),
              World (db w) (slept w ++ ds ++ [200%Z]))) ∨
        (∃ newest,
           last increment = Some newest ∧
           count_read_fails E key = false ∧ update_fails E key = false ∧
           process_sensor E lts key cfg a w
           = (Done (Acc (<[key := value newest]> (latestValues a))
                      (<[key := newTimestamp_entry (clock E) newest]>
                         (newTimestamps a))
                      (totalNewRecords a + length increment)
                      (S (successfulSensors a))),
              World (apply_updates (db w)
                       (build_updates key (read_recordCount (db w) key)
                          increment (clock E)
                          (newTimestamp_entry (clock E) newest)))
                    (slept w ++ ds ++ [200%Z])))
    end.
Proof.
  destruct (fetch_attempts_waits E key cfg 3 3 0) as (res & ds & Hds & Hf).
  fold (fetchSensor E key cfg 3) in Hf.
  exists res, ds. split; [done|]. split; [done|].
  destruct res as [r|].
  2:{ by apply process_sensor_undefined. }
  cbv zeta. rewrite !app_assoc.
  destruct (decide (result_data r = [])) as [Hnil|Hne].
  { left. split; [done|]. by rewrite (process_sensor_no_records _ _ _ _ _ _ _ _ (Hf w) Hnil). }
  right.
  destruct (decide (newer_than (lastTs_of lts key) (result_data r) = []))
    as [Hold|Hnew].
  { left. split; [done|]. split; [by apply trulyNewRecords_nil|].
    destruct (process_sensor_nothing_new _ _ _ _ a _ _ _ (Hf w) Hne Hold)
      as (x & Hx & ->). by exists x. }
  right.
  destruct (count_read_fails E key) eqn:Hc.
  { left.
    destruct (process_sensor_append_fails _ _ _ _ a _ _ _ (Hf w) Hnew
                (or_introl Hc)) as (newest & Hlast & ->).
    exists newest. split_and!; [done|by left|done]. }
  destruct (update_fails E key) eqn:Hu.
  { left.
    destruct (process_sensor_append_fails _ _ _ _ a _ _ _ (Hf w) Hnew
                (or_intror Hu)) as (newest & Hlast & ->).
    exists newest. split_and!; [done|by right|done]. }
  right.
  destruct (process_sensor_append_ok _ _ _ _ a _ _ _ (Hf w) Hnew Hc Hu)
    as (newest & Hlast & ->).
  exists newest. by split_and!.
Qed.

End Cases.

Section Completion.
Context {V : Type}.
Implicit Types (E : env V) (w : world V) (a : acc V)
  (lts : gmap string (watermark V))
  (sensors : list (string * sensor_config)).

(** [main] in one piece: the loop, then the two final writes. *)
Lemma main_unfold E w :
  main E w
  = match process_all E (if meta_read_fails E then ∅ else sensorMeta (db w))
            SENSORS acc_init w with
    | (Done a, w1) =>
        if metadata_write_fails E then (Done 1%Z, w1)
        else
          (Done 0%Z,
           World
             (Store (sensorData (db w1)) (sensorMeta (db w1))
                (Some (RunSummary (clock E) (clock E) (clock E)
                         (successfulSensors a) (latestValues a)))
                (if history_write_fails E then weatherHistory (db w1)
                 else <[clock E := (clock E, latestValues a)]>
                        (weatherHistory (db w1))))
             (slept w1))
    | (Thrown e, w1) => (Thrown e, w1)
    end.
Proof.
  unfold main, read_lastTimestamps. generalize SENSORS. intros sensors.
  destruct (meta_read_fails E); unfold bind, ret, get_db, put_db; simpl.
  all: match goal with
       | |- context [process_all ?e ?l ?ss acc_init ?w0] =>
           destruct (process_all e l ss acc_init w0) as [[a1|err] w1]
       end; simpl; [|done].
  all: destruct (metadata_write_fails E); [done|].
  all: by destruct (history_write_fails E).
Qed.

(** An iteration throws exactly when the fetch returns [undefined]. *)
Lemma process_sensor_throws_iff E lts key cfg a w :
  (∃ e, (process_sensor E lts key cfg a w).1 = Thrown e)
  ↔ (fetchSensor E key cfg 3 w).1 = Done None.
Proof.
  destruct (process_sensor_cases E lts key cfg a w)
    as (res & ds & _ & Hf & Hcases).
  rewrite Hf. simpl. destruct res as [r|].
  - split; [|done]. intros [e He]. exfalso.
    destruct Hcases as [[_ H]|[(_ & _ & x & _ & H)|[(n & _ & _ & H)|(n & _ & _ & _ & H)]]];
      by rewrite H in He.
  - split; [done|]. intros _. rewrite Hcases. by eexists.
Qed.

(** The loop runs to its end exactly when no fetch returns [undefined]. *)
Lemma process_all_throws_iff E lts sensors a w :
  (∃ e, (process_all E lts sensors a w).1 = Thrown e)
  ↔ ∃ key cfg, (key, cfg) ∈ sensors ∧
               (fetchSensor E key cfg 3 w).1 = Done None.
Proof.
  revert a w. induction sensors as [|[key cfg] rest IH]; intros a w.
  - simpl. split; [by intros [e ?]|]. intros (k & c & Hin & _).
    by apply elem_of_nil in Hin.
  - simpl. unfold bind.
    pose proof (process_sensor_throws_iff E lts key cfg a w) as Hhead.
    destruct (process_sensor E lts key cfg a w) as [[a1|e] w1] eqn:Hp;
      simpl in *.
    + rewrite IH. split.
      * intros (k & c & Hin & Hf). exists k, c. split; [by right|].
        by rewrite (fetchSensor_result_indep E k c 3 w w1).
      * intros (k & c & Hin & Hf).
        apply elem_of_cons in Hin as [[= -> ->]|Hin].
        { apply Hhead in Hf as [e He]. done. }
        exists k, c. split; [done|].
        by rewrite (fetchSensor_result_indep E k c 3 w1 w).
    + split; [|by eexists]. intros _. exists key, cfg.
      split; [by left|]. apply Hhead. by eexists.
Qed.

End Completion.

(** X6. The exit status of the script is 0 exactly when the final write of
    the run metadata succeeds and no sensor's fetch returns [undefined];
    otherwise it is 1.  Fetches that end with a tagged error, appends that
    fail, a failed read of the watermarks and a failed write of the history
    entry never change the status. *)
Theorem script_exit_status {V : Type} (E : env V) (w : world V) :
  ((script E w).1 = 0%Z ∨ (script E w).1 = 1%Z) ∧
  ((script E w).1 = 0%Z
   ↔ metadata_write_fails E = false ∧
     ∀ key cfg, (key, cfg) ∈ SENSORS →
                (fetchSensor E key cfg 3 w).1 ≠ Done None).
Proof.
  unfold script. rewrite main_unfold.
  pose proof (process_all_throws_iff E
                (if meta_read_fails E then ∅ else sensorMeta (db w))
                SENSORS acc_init w) as Hthrow.
  destruct (process_all E _ SENSORS acc_init w) as [[a1|e] w1]; simpl in *.
  - assert (∀ key cfg, (key, cfg) ∈ SENSORS →
              (fetchSensor E key cfg 3 w).1 ≠ Done None) as Hdef.
    { intros key cfg Hin Hf.
      destruct (proj2 Hthrow) as [e ?]; [|done]. by exists key, cfg. }
    destruct (metadata_write_fails E); simpl.
    + split; [by right|]. split; [done|]. by intros [? _].
    + split; [by left|]. done.
  - split; [by right|]. split; [done|]. intros [_ Hdef].
    destruct (proj1 Hthrow) as (key & cfg & Hin & Hf); [by eexists|].
    by destruct (Hdef key cfg Hin).
Qed.

Section Accumulators.
Context {V : Type}.
Implicit Types (E : env V) (w : world V) (a : acc V)
  (lts : gmap string (watermark V))
  (sensors : list (string * sensor_config)).

(** What an iteration that ends normally does to the accumulators, to the
    trace of delays and to the record count of its sensor. *)
Lemma process_sensor_acc E lts key cfg a w a' w' :
  process_sensor E lts key cfg a w = (Done a', w') →
  (latestValues a' = latestValues a ∧
   successfulSensors a' = successfulSensors a ∨
   ∃ v, latestValues a' = <[key := v]> (latestValues a) ∧
        successfulSensors a ≤ successfulSensors a' ≤ S (successfulSensors a)) ∧
  (∃ ds, slept w' = slept w ++ ds ++ [200%Z] ∧
         Forall (λ d, (1000 ≤ d)%Z) ds) ∧
  (Z.of_nat (totalNewRecords a') - Z.of_nat (totalNewRecords a)
   = read_recordCount (db w') key - read_recordCount (db w) key)%Z.
Proof.
  intros Hp.
  destruct (process_sensor_cases E lts key cfg a w)
    as (res & ds & Hds & _ & Hcases).
  destruct res as [r|]; [|by rewrite Hp in Hcases].
  cbv zeta in Hcases.
  destruct Hcases
    as [[_ H]|[(_ & _ & x & _ & H)|[(n & _ & _ & H)|(n & _ & _ & _ & H)]]];
    rewrite Hp in H; injection H as -> ->; simpl.
  - destruct (lts !! key ≫= latestValue) as [v|]; simpl;
      (split_and!; [|by exists ds|lia]).
    + right. exists v. split; [done|lia].
    + by left.
  - split_and!; [|by exists ds|lia].
    right. eexists. split; [done|lia].
  - split_and!; [|by exists ds|lia].
    right. eexists. split; [done|lia].
  - split_and!; [|by exists ds|].
    + right. eexists. split; [done|lia].
    + set (increment := trulyNewRecords _ _).
      destruct (apply_build_updates (db w) key (read_recordCount (db w) key)
                  increment (clock E) (newTimestamp_entry (clock E) n))
        as (_ & _ & _ & _ & _ & Hc & _).
      rewrite (read_recordCount_log_of (apply_updates _ _)), Hc. simpl. lia.
Qed.

(** The counter of updated sensors never exceeds the number of entries of
    [latestValues], which never exceeds the number of sensors. *)
Lemma process_all_counters E lts sensors a w a' w' :
  NoDup sensors.*1 →
  (∀ k, k ∈ sensors.*1 → latestValues a !! k = None) →
  process_all E lts sensors a w = (Done a', w') →
  successfulSensors a' + size (latestValues a)
  ≤ successfulSensors a + size (latestValues a') ∧
  size (latestValues a') ≤ size (latestValues a) + length sensors ∧
  ∀ k, is_Some (latestValues a' !! k) →
       is_Some (latestValues a !! k) ∨ k ∈ sensors.*1.
Proof.
  revert a w. induction sensors as [|[key cfg] rest IH]; intros a w Hnd Hfresh Hp.
  { simpl in Hp. injection Hp as -> ->. split_and!; [lia..|]. by left. }
  rewrite fmap_cons in Hnd, Hfresh. simpl in Hnd, Hfresh.
  apply NoDup_cons in Hnd as [Hkey Hnd].
  simpl in Hp. unfold bind in Hp.
  destruct (process_sensor E lts key cfg a w) as [[a1|e] w1] eqn:Hhead;
    [|done].
  destruct (process_sensor_acc _ _ _ _ _ _ _ _ Hhead) as (Hlv & _ & _).
  assert (latestValues a !! key = None) as Hnone by (apply Hfresh; by left).
  assert (∀ k, k ∈ rest.*1 → latestValues a1 !! k = None) as Hfresh1.
  { intros k Hk. assert (k ≠ key) by (by intros ->).
    destruct Hlv as [[-> _]|(v & -> & _)].
    - apply Hfresh. by right.
    - rewrite lookup_insert_ne by done. apply Hfresh. by right. }
  destruct (IH a1 w1 Hnd Hfresh1 Hp) as (Hle & Hsize & Hdom).
  rewrite fmap_cons. simpl.
  destruct Hlv as [[Heq Hs]|(v & Heq & Hs)]; rewrite Heq in *.
  - split_and!; [lia..|].
    intros k Hk. destruct (Hdom k Hk) as [?|?]; [by left|right; by right].
  - rewrite map_size_insert_None in * by done.
    split_and!; [lia..|].
    intros k Hk. destruct (Hdom k Hk) as [Hk'|?]; [|right; by right].
    destruct (decide (k = key)) as [->|Hne]; [right; by left|].
    left. by rewrite lookup_insert_ne in Hk'.
Qed.

(** A loop that runs to its end awaits exactly one pause of 200 ms per
    sensor. *)
Lemma process_all_pacing E lts sensors a w a' w' :
  process_all E lts sensors a w = (Done a', w') →
  ∃ ds, slept w' = slept w ++ ds ∧
        length (filter (λ d, d = 200%Z) ds) = length sensors.
Proof.
  revert a w. induction sensors as [|[key cfg] rest IH]; intros a w Hp.
  { simpl in Hp. injection Hp as -> ->. exists []. by rewrite app_nil_r. }
  simpl in Hp. unfold bind in Hp.
  destruct (process_sensor E lts key cfg a w) as [[a1|e] w1] eqn:Hhead;
    [|done].
  destruct (process_sensor_acc _ _ _ _ _ _ _ _ Hhead)
    as (_ & (ds & Hs & Hds) & _).
  destruct (IH a1 w1 Hp) as (ds' & Hs' & Hlen).
  exists (ds ++ [200%Z] ++ ds'). split.
  - rewrite Hs', Hs. by rewrite <- !app_assoc.
  - rewrite !filter_app, !length_app, Hlen.
    assert (filter (λ d, d = 200%Z) ds = []) as ->.
    { clear Hs. induction Hds as [|d ds Hd _ IHds]; [done|].
      rewrite filter_cons_False by lia. done. }
    done.
Qed.

(** The number of new records the loop counts is the total growth of the
    record counts of its sensors. *)
Lemma process_all_total E lts sensors a w a' w' :
  NoDup sensors.*1 →
  process_all E lts sensors a w = (Done a', w') →
  (Z.of_nat (totalNewRecords a') - Z.of_nat (totalNewRecords a)
   = foldr Z.add 0
       ((λ k, read_recordCount (db w') k - read_recordCount (db w) k)
          <$> sensors.*1))%Z.
Proof.
  assert (∀ (s s' : store V) k,
            sensor_state s' k = sensor_state s k →
            read_recordCount s' k = read_recordCount s k) as Hrc.
  { intros s s' k [= _ Hd]. unfold read_recordCount. by rewrite Hd. }
  revert a w. induction sensors as [|[key cfg] rest IH]; intros a w Hnd Hp.
  { simpl in Hp. injection Hp as -> ->. simpl. lia. }
  rewrite fmap_cons in Hnd. simpl in Hnd.
  apply NoDup_cons in Hnd as [Hkey Hnd].
  simpl in Hp. unfold bind in Hp.
  destruct (process_sensor E lts key cfg a w) as [[a1|e] w1] eqn:Hhead;
    [|done].
  destruct (process_sensor_acc _ _ _ _ _ _ _ _ Hhead) as (_ & _ & Htot).
  pose proof (process_sensor_step E lts key cfg a w) as (_ & Hother & _).
  rewrite Hhead in Hother. simpl in Hother.
  pose proof (process_all_other E lts rest a1 w1 key Hkey) as Hkeep.
  rewrite Hp in Hkeep. simpl in Hkeep.
  specialize (IH a1 w1 Hnd Hp).
  rewrite !fmap_cons. cbn [foldr fst]. rewrite (Hrc _ _ _ Hkeep).
  assert (((λ k, read_recordCount (db w') k - read_recordCount (db w) k)
             <$> rest.*1)
          = ((λ k, read_recordCount (db w') k - read_recordCount (db w1) k)
               <$> rest.*1))%Z as ->.
  { apply list_fmap_ext. intros i k Hk. f_equal. symmetry. apply Hrc, Hother.
    intros ->. apply Hkey. by eapply list_elem_of_lookup_2. }
  lia.
Qed.

End Accumulators.

(** X7. When the script exits with status 0, the run summary it has written
    counts at most as many updated sensors as it lists latest values, lists
    at most one latest value per sensor of the table, and lists none for a
    key that is not in the table.  (The count can be smaller: a sensor whose
    append failed has a latest value but is not counted.) *)
Theorem summary_counts_are_bounded {V : Type} (E : env V) (w : world V) :
  (script E w).1 = 0%Z →
  ∃ m, weatherMetadata (db (script E w).2) = Some m ∧
       sensorCount m ≤ size (summary_latestValues m) ∧
       size (summary_latestValues m) ≤ length SENSORS ∧
       ∀ k, is_Some (summary_latestValues m !! k) → k ∈ SENSORS.*1.
Proof.
  unfold script. rewrite main_unfold.
  destruct (process_all E _ SENSORS acc_init w) as [[a1|e] w1] eqn:Hp;
    simpl; [|done].
  destruct (metadata_write_fails E); simpl; [done|]. intros _.
  destruct (process_all_counters _ _ _ _ _ _ _ NoDup_SENSORS
              (λ k _, lookup_empty k) Hp) as (Hle & Hsize & Hdom).
  eexists. split; [done|]. cbn [sensorCount summary_latestValues].
  change (latestValues acc_init) with (∅ : gmap string V) in *.
  change (successfulSensors (@acc_init V)) with 0 in *.
  rewrite map_size_empty in *.
  assert (length SENSORS = 17) as Hlen by reflexivity.
  split_and!; [lia..|].
  intros k Hk. destruct (Hdom k Hk) as [Hk'|?]; [|done].
  rewrite lookup_empty in Hk'. by destruct Hk'.
Qed.

(** X8. When no sensor's fetch returns [undefined], the run awaits exactly
    one pause of 200 ms per sensor of the table, whatever the fetches
    returned and whether or not the appends and final writes succeeded. *)
Theorem run_paces_every_sensor {V : Type} (E : env V) (w : world V) :
  (∀ key cfg, (key, cfg) ∈ SENSORS →
              (fetchSensor E key cfg 3 w).1 ≠ Done None) →
  ∃ ds, slept (script E w).2 = slept w ++ ds ∧
        length (filter (λ d, d = 200%Z) ds) = length SENSORS.
Proof.
  intros Hdef. unfold script. rewrite main_unfold.
  pose proof (process_all_throws_iff E
                (if meta_read_fails E then ∅ else sensorMeta (db w))
                SENSORS acc_init w) as Hthrow.
  destruct (process_all E _ SENSORS acc_init w) as [[a1|e] w1] eqn:Hp.
  - destruct (process_all_pacing _ _ _ _ _ _ _ Hp) as (ds & Hs & Hlen).
    exists ds. by destruct (metadata_write_fails E).
  - destruct (proj1 Hthrow) as (key & cfg & Hin & Hf); [by eexists|].
    by destruct (Hdef key cfg Hin).
Qed.

(** X9. At the end of a loop that ran to its end, the counter of new
    records ([totalNewRecords], printed in the summary) is the total growth
    of the [recordCount] fields of the sensors of the table (an absent field
    counting as 0). *)
Theorem total_new_records_is_growth {V : Type} (E : env V)
    (lts : gmap string (watermark V)) (w w' : world V) (a' : acc V) :
  process_all E lts SENSORS acc_init w = (Done a', w') →
  Z.of_nat (totalNewRecords a')
  = foldr Z.add 0%Z
      ((λ k, read_recordCount (db w') k - read_recordCount (db w) k)%Z
         <$> SENSORS.*1).
Proof.
  intros Hp.
  pose proof (process_all_total E lts SENSORS acc_init w a' w'
                NoDup_SENSORS Hp) as H.
  change (totalNewRecords (@acc_init V)) with 0 in H. lia.
Qed.

(** ** The shape of the stored logs across a run *)

Section LogShape.
Context {V : Type}.
Implicit Types (E : env V) (w : world V) (rs inc : list (reading V))
  (l : sensor_log V).

Lemma log_extends l l' rs inc :
  log_holds l rs →
  recordCount l' = Some (Z.of_nat (length rs) + Z.of_nat (length inc))%Z →
  (∀ (i : nat) r, inc !! i = Some r →
      data l' !! (Z.of_nat (length rs) + Z.of_nat i)%Z = Some r) →
  (∀ z, (z < Z.of_nat (length rs)
         ∨ Z.of_nat (length rs) + Z.of_nat (length inc) ≤ z)%Z →
      data l' !! z = data l !! z) →
  log_holds l' (rs ++ inc).
Proof.
  intros (Hc & Hin & Hout) Hc' Hin' Hout'. split_and!.
  - rewrite Hc', length_app. f_equal. lia.
  - intros i. destruct (decide (i < length rs)) as [Hlt|Hge].
    + rewrite lookup_app_l by done. rewrite Hout' by lia. apply Hin.
    + rewrite lookup_app_r by lia.
      destruct (inc !! (i - length rs)) as [r|] eqn:Hr.
      * rewrite <- (Hin' _ _ Hr). f_equal. lia.
      * apply lookup_ge_None in Hr. rewrite Hout' by lia. apply Hout. lia.
  - intros z Hz. rewrite length_app in Hz. rewrite Hout' by lia. apply Hout. lia.
Qed.

(** What [appended] means for a log whose content is known. *)
Lemma appended_holds now
    (before after : option (watermark V) * option (sensor_log V)) rs :
  holds_readings before.2 rs →
  appended now before after →
  ∃ inc newest,
    holds_readings after.2 (rs ++ inc) ∧
    StronglySorted ts_le inc ∧
    (∀ r, r ∈ inc → (lastTs_of_entry before.1 < timestamp r)%Z) ∧
    last inc = Some newest ∧
    after.1 = Some (newTimestamp_entry now newest).
Proof.
  intros Hrs (fetched & newest & l' & Hlast & Hwm & Hlog & Hc & Hin & Hout).
  set (inc := trulyNewRecords (lastTs_of_entry before.1) fetched) in *.
  exists inc, newest. split_and!; [|apply trulyNewRecords_sorted| |done..].
  2:{ intros r Hr. by apply elem_of_trulyNewRecords in Hr as [_ ?]. }
  rewrite Hlog. simpl.
  destruct before as [wm [l|]]; simpl in *.
  - pose proof Hrs as (Hcount & _). rewrite Hcount in *. simpl in *.
    by eapply log_extends.
  - subst rs.
    apply (log_extends (SensorLog ∅ (Some 0%Z) None) l' [] inc); simpl;
      done.
Qed.

End LogShape.

(** X10. The script only ever appends to a sensor's log: if, before a run,
    the log of a sensor holds the readings [rs] at positions 0, 1, ... with
    [recordCount] their number (an absent log holding none), then after the
    run, whatever failed during it, the log holds [rs] followed by readings
    sorted ascending by timestamp, again with [recordCount] their number. *)
Theorem run_only_appends {V : Type} (E : env V) (w : world V)
    (key : string) (rs : list (reading V)) :
  holds_readings (sensorData (db w) !! key) rs →
  ∃ inc, holds_readings (sensorData (db (script E w).2) !! key) (rs ++ inc) ∧
         StronglySorted ts_le inc.
Proof.
  intros Hrs.
  pose proof (process_all_step E
                (if meta_read_fails E then ∅ else sensorMeta (db w))
                SENSORS acc_init w key NoDup_SENSORS) as Hstep.
  cbv zeta in Hstep.
  rewrite <- main_sensor_state, <- script_world in Hstep.
  destruct Hstep as [Hsame|Happ].
  - exists []. rewrite app_nil_r. split; [|constructor].
    by injection Hsame as _ ->.
  - destruct (appended_holds _ (_, sensorData (db w) !! key) _ rs Hrs Happ)
      as (inc & _ & Hinc & Hs & _).
    by exists inc.
Qed.

(** X11. Consistency of a sensor's state is an invariant of the runs whose
    bulk read of the watermarks succeeds: if the log is a sequence of
    readings sorted ascending by timestamp whose last reading carries the
    watermark's timestamp, the same holds after the run. *)
Theorem run_keeps_consistent {V : Type} (E : env V) (w : world V)
    (key : string) :
  meta_read_fails E = false →
  consistent (sensor_state (db w) key) →
  consistent (sensor_state (db (script E w).2) key).
Proof.
  intros Hread (rs & Hrs & Hsorted & Hlast).
  pose proof (process_all_step E
                (if meta_read_fails E then ∅ else sensorMeta (db w))
                SENSORS acc_init w key NoDup_SENSORS) as Hstep.
  cbv zeta in Hstep.
  rewrite <- main_sensor_state, <- script_world, Hread in Hstep.
  fold (sensor_state (db w) key) in Hstep.
  destruct Hstep as [->|Happ]; [by exists rs|].
  destruct (appended_holds _ (sensor_state (db w) key) _ rs Hrs Happ)
    as (inc & newest & Hinc & Hs & Hgt & Hnewest & Hwm).
  exists (rs ++ inc). split_and!; [done| |].
  - apply StronglySorted_app. split_and!; [|done..].
    intros x y Hx Hy. specialize (Hgt y Hy).
    destruct (last rs) as [z|] eqn:Hz;
      [|apply last_None in Hz; subst; by apply elem_of_nil in Hx].
    pose proof (sorted_last_max rs z x Hsorted Hz Hx) as Hxz.
    specialize (Hlast z eq_refl). unfold ts_le in *. lia.
  - intros r Hr. rewrite last_app, Hnewest in Hr. injection Hr as <-.
    rewrite Hwm. by rewrite lastTs_of_entry_Some.
Qed.

(** X12. An iteration whose fetch returns a result and whose append is
    accepted stores every fetched reading whose timestamp exceeds the
    watermark the run read, and nothing else: with c the record count
    before and n the number of such fetched readings, the record count
    becomes c + n, each such reading sits at one of the positions
    c .. c+n-1, and each of these positions holds such a reading. *)
Theorem iteration_stores_exactly_the_new {V : Type} (E : env V)
    (lts : gmap string (watermark V)) (key : string) (cfg : sensor_config)
    (a : acc V) (w w1 : world V) (res : fetch_result V) :
  fetchSensor E key cfg 3 w = (Done (Some res), w1) →
  count_read_fails E key = false →
  update_fails E key = false →
  let lastTs := lastTs_of lts key in
  let c := read_recordCount (db w) key in
  let n := length (newer_than lastTs (result_data res)) in
  let w' := (process_sensor E lts key cfg a w).2 in
  read_recordCount (db w') key = (c + Z.of_nat n)%Z ∧
  (∀ r, r ∈ result_data res → (lastTs < timestamp r)%Z →
        ∃ i : nat, i < n ∧
          data (log_of (db w') key) !! (c + Z.of_nat i)%Z = Some r) ∧
  (∀ (i : nat) r, i < n →
        data (log_of (db w') key) !! (c + Z.of_nat i)%Z = Some r →
        r ∈ result_data res ∧ (lastTs < timestamp r)%Z).
Proof.
  intros Hf Hc Hu. cbv zeta.
  destruct (decide (newer_than (lastTs_of lts key) (result_data res) = []))
    as [Hold|Hnew].
  - rewrite (process_sensor_empty_increment E lts key cfg a w w1 res Hf)
      by (by apply trulyNewRecords_nil).
    rewrite Hold. simpl. split_and!; [lia| |intros; lia].
    intros r Hr Hgt. exfalso.
    eapply (filter_nil_not_elem_of _ _ r Hold); done.
  - destruct (process_sensor_append_ok _ _ _ _ a _ _ _ Hf Hnew Hc Hu)
      as (newest & _ & ->).
    destruct (fetchSensor_runs E key cfg 3 w) as (res' & ds & Hf').
    rewrite Hf in Hf'. injection Hf' as _ ->. cbn [snd db].
    set (increment := trulyNewRecords (lastTs_of lts key) (result_data res)).
    assert (length (newer_than (lastTs_of lts key) (result_data res))
            = length increment) as ->.
    { unfold increment, trulyNewRecords. by rewrite sort_by_timestamp_perm. }
    destruct (apply_build_updates (db w) key (read_recordCount (db w) key)
                increment (clock E) (newTimestamp_entry (clock E) newest))
      as (_ & _ & _ & _ & _ & Hcount & _ & Hin & _).
    set (s' := apply_updates (db w) _) in *.
    split_and!.
    + by rewrite (read_recordCount_log_of s'), Hcount.
    + intros r Hr Hgt.
      assert (r ∈ increment) as [i Hi]%list_elem_of_lookup
        by (by apply elem_of_trulyNewRecords).
      exists i. split; [by eapply lookup_lt_Some|by apply Hin].
    + intros i r Hi Hr.
      destruct (lookup_lt_is_Some_2 increment i Hi) as [r' Hr'].
      rewrite (Hin i r' Hr') in Hr. injection Hr as <-.
      apply elem_of_trulyNewRecords. by eapply list_elem_of_lookup_2.
Qed.

(** ** What an iteration depends on *)

Section Locality.
Context {V : Type}.
Implicit Types (E : env V) (w : world V) (a : acc V)
  (lts : gmap string (watermark V))
  (sensors : list (string * sensor_config)).

Lemma fetch_attempts_agree E1 E2 key cfg retries remaining attempt w :
  (∀ n, upstream E1 key n = upstream E2 key n) →
  fetch_attempts E1 key cfg retries remaining attempt w
  = fetch_attempts E2 key cfg retries remaining attempt w.
Proof.
  intros Hup. revert attempt w.
  induction remaining as [|n IH]; intros attempt w; simpl; [done|].
  rewrite Hup. destruct (upstream E2 key attempt); [|case_decide|]; try done.
  all: unfold bind, delay; by rewrite IH.
Qed.

(** An iteration only looks at its own sensor's part of the environment. *)
Lemma process_sensor_agree E1 E2 lts key cfg a w :
  agree_on key E1 E2 →
  process_sensor E1 lts key cfg a w = process_sensor E2 lts key cfg a w.
Proof.
  intros (Hup & Hc & Hu & Hclock).
  unfold process_sensor, append_step, fetchSensor, bind.
  rewrite (fetch_attempts_agree E1 E2) by done.
  destruct (fetch_attempts E2 key cfg 3 3 0 w) as [[[res|]|e] w1]; try done.
  by rewrite Hc, Hu, Hclock.
Qed.

Lemma process_all_agree E1 E2 lts sensors a w :
  (∀ k, k ∈ sensors.*1 → agree_on k E1 E2) →
  process_all E1 lts sensors a w = process_all E2 lts sensors a w.
Proof.
  revert a w. induction sensors as [|[key cfg] rest IH]; intros a w Hagree;
    [done|].
  simpl. unfold bind.
  rewrite (process_sensor_agree E1 E2) by (apply Hagree; by left).
  destruct (process_sensor E2 lts key cfg a w) as [[a1|e] w1]; [|done].
  apply IH. intros k Hk. apply Hagree. by right.
Qed.

End Locality.

(** X13. The write of the history entry is best effort: whether it fails or
    not, the exit status, the sensor logs, the watermarks, the run metadata
    and the delays are the same; when it fails the history subtree is as it
    was before the run. *)
Theorem history_failure_is_harmless {V : Type} (E : env V) (w : world V) :
  let failed := script (with_history_failure E true) w in
  let written := script (with_history_failure E false) w in
  failed.1 = written.1 ∧
  sensorData (db failed.2) = sensorData (db written.2) ∧
  sensorMeta (db failed.2) = sensorMeta (db written.2) ∧
  weatherMetadata (db failed.2) = weatherMetadata (db written.2) ∧
  slept failed.2 = slept written.2 ∧
  weatherHistory (db failed.2) = weatherHistory (db w).
Proof.
  cbv zeta. unfold script. rewrite !main_unfold.
  change (meta_read_fails (with_history_failure E true))
    with (meta_read_fails E).
  change (meta_read_fails (with_history_failure E false))
    with (meta_read_fails E).
  set (lts := if meta_read_fails E then ∅ else sensorMeta (db w)).
  rewrite (process_all_agree (with_history_failure E true) E) by done.
  rewrite (process_all_agree (with_history_failure E false) E) by done.
  destruct (process_all_summary E lts SENSORS acc_init w) as [_ Hh].
  destruct (process_all E lts SENSORS acc_init w) as [[a1|e] w1];
    simpl in *; [|done].
  by destruct (metadata_write_fails E).
Qed.

(** X14. The final writes: either the script exits with status 0, the run
    metadata is written and the history entry, unless its write fails,
    is added under the clock's key with the same latest values as the
    metadata; or the script exits with status 1 and neither the metadata nor
    the history has changed. *)
Theorem final_writes {V : Type} (E : env V) (w : world V) :
  let after := db (script E w).2 in
  ((script E w).1 = 0%Z ∧
   ∃ m, weatherMetadata after = Some m ∧
        weatherHistory after
        = if history_write_fails E then weatherHistory (db w)
          else <[clock E := (clock E, summary_latestValues m)]>
                 (weatherHistory (db w))) ∨
  ((script E w).1 = 1%Z ∧
   weatherMetadata after = weatherMetadata (db w) ∧
   weatherHistory after = weatherHistory (db w)).
Proof.
  cbv zeta. unfold script. rewrite main_unfold.
  set (lts := if meta_read_fails E then ∅ else sensorMeta (db w)).
  destruct (process_all_summary E lts SENSORS acc_init w) as [Hm Hh].
  destruct (process_all E lts SENSORS acc_init w) as [[a1|e] w1];
    simpl in *; [|by right].
  destruct (metadata_write_fails E); simpl; [by right|].
  left. split; [done|]. eexists. split; [done|]. simpl. by rewrite Hh.
Qed.

(** ** Running the script again *)

Section Again.
Context {V : Type}.
Implicit Types (E : env V) (w : world V) (a : acc V)
  (lts : gmap string (watermark V))
  (sensors : list (string * sensor_config)).

(** After an iteration, a second iteration for the same sensor that reads
    the watermark the first one left, and gets the same answers, leaves the
    sensor's watermark and log as they are. *)
Lemma process_sensor_again E lts lts' key cfg a a' w w2 :
  lts !! key = sensorMeta (db w) !! key →
  lts' !! key = sensorMeta (db (process_sensor E lts key cfg a w).2) !! key →
  sensor_state (db (process_sensor E lts' key cfg a' w2).2) key
  = sensor_state (db w2) key.
Proof.
  intros Hlts Hlts'.
  destruct (process_sensor_db E lts' key cfg a' w2)
    as [->|(res & newest & Hf & Hlast & Hc & Hu & _)]; [done|].
  exfalso. cbv zeta in Hlast.
  assert (newer_than (lastTs_of lts' key) (result_data res) = []) as Hnone.
  2:{ apply trulyNewRecords_nil in Hnone. by rewrite Hnone in Hlast. }
  rewrite (fetchSensor_result_indep E key cfg 3 w2 w) in Hf.
  destruct (fetchSensor E key cfg 3 w) as [o w1] eqn:Hfw.
  simpl in Hf. subst o.
  destruct (decide (newer_than (lastTs_of lts key) (result_data res) = []))
    as [Hold|Hnew].
  - rewrite (process_sensor_empty_increment E lts key cfg a w w1 res Hfw)
      in Hlts' by (by apply trulyNewRecords_nil).
    unfold lastTs_of in *. by rewrite Hlts', <- Hlts.
  - destruct (process_sensor_append_ok _ _ _ _ a _ _ _ Hfw Hnew Hc Hu)
      as (newest1 & Hlast1 & Hp).
    rewrite Hp in Hlts'. cbn [snd db] in Hlts'.
    destruct (apply_build_updates (db w1) key (read_recordCount (db w1) key)
                (trulyNewRecords (lastTs_of lts key) (result_data res))
                (clock E) (newTimestamp_entry (clock E) newest1))
      as (Hm & _).
    rewrite Hm, lookup_insert_eq in Hlts'.
    unfold lastTs_of at 1. rewrite Hlts', lastTs_of_entry_Some. simpl.
    by eapply newer_than_newest.
Qed.

Lemma process_all_again E lts lts' sensors a a' w w2 :
  NoDup sensors.*1 →
  (∀ k, k ∈ sensors.*1 → lts !! k = sensorMeta (db w) !! k) →
  (∀ k, k ∈ sensors.*1 →
        lts' !! k = sensorMeta (db (process_all E lts sensors a w).2) !! k) →
  ∀ k, sensor_state (db (process_all E lts' sensors a' w2).2) k
       = sensor_state (db w2) k.
Proof.
  revert a a' w w2.
  induction sensors as [|[key cfg] rest IH]; intros a a' w w2 Hnd Hlts Hlts' k;
    [done|].
  rewrite fmap_cons in Hnd, Hlts, Hlts'. simpl in Hnd, Hlts, Hlts'.
  apply NoDup_cons in Hnd as [Hkey Hnd].
  pose proof (process_sensor_throws_iff E lts key cfg a w) as Ht1.
  pose proof (process_sensor_throws_iff E lts' key cfg a' w2) as Ht2.
  rewrite (fetchSensor_result_indep E key cfg 3 w2 w) in Ht2.
  pose proof (process_sensor_step E lts key cfg a w) as (_ & Ho1 & _).
  pose proof (process_sensor_step E lts' key cfg a' w2) as (_ & Ho2 & _).
  assert (sensor_state (db (process_sensor E lts' key cfg a' w2).2) key
          = sensor_state (db w2) key) as Hself.
  { apply (process_sensor_again E lts lts' key cfg a a' w w2).
    - apply Hlts. by left.
    - rewrite (Hlts' key) by (by left). simpl in *. unfold bind.
      destruct (process_sensor E lts key cfg a w) as [[a1|e] w1]; [|done].
      pose proof (process_all_other E lts rest a1 w1 key Hkey) as H.
      by injection H as -> _. }
  assert (∀ k', sensor_state (db (process_sensor E lts' key cfg a' w2).2) k'
                = sensor_state (db w2) k') as Hall.
  { intros k'. destruct (decide (k' = key)) as [->|Hne]; [done|].
    by apply Ho2. }
  simpl in *. unfold bind in *.
  destruct (process_sensor E lts key cfg a w) as [[a1|e1] w1] eqn:Hp1;
    destruct (process_sensor E lts' key cfg a' w2) as [[a2|e2] wb] eqn:Hp2;
    simpl in *.
  - rewrite (IH a1 a2 w1 wb); [done|done| |].
    + intros k' Hk'. rewrite Hlts by (by right).
      assert (k' ≠ key) as Hne by (by intros ->).
      by injection (Ho1 k' Hne) as -> _.
    + intros k' Hk'. apply Hlts'. by right.
  - exfalso. destruct (proj2 Ht1) as [e ?]; [|done].
    apply Ht2. by eexists.
  - exfalso. destruct (proj2 Ht2) as [e ?]; [|done].
    apply Ht1. by eexists.
  - done.
Qed.

End Again.

(** X15. Running the script a second time against the same environment
    (the same answers from upstream, the same failures) changes no sensor's
    log or watermark, provided the bulk read of the watermarks succeeds:
    nothing is appended twice. *)
Theorem second_run_changes_nothing {V : Type} (E : env V) (w : world V)
    (key : string) :
  meta_read_fails E = false →
  sensor_state (db (script E (script E w).2).2) key
  = sensor_state (db (script E w).2) key.
Proof.
  intros Hread.
  rewrite (script_world E (script E w).2), main_sensor_state, Hread.
  apply (process_all_again E (sensorMeta (db w)) _ SENSORS acc_init acc_init w);
    [apply NoDup_SENSORS|done|].
  intros k _.
  pose proof (main_sensor_state E w k) as H.
  rewrite Hread, <- script_world in H. by injection H as -> _.
Qed.

(** ** Isolation between sensors *)

Section Isolation.
Context {V : Type}.
Implicit Types (E : env V) (w : world V) (a : acc V) (s : store V)
  (lts : gmap string (watermark V))
  (sensors : list (string * sensor_config)).

(** The update of the append step acts on the sensor's part of the store
    only through that part. *)
Lemma apply_updates_local s1 s2 key (c : Z) records now entry :
  sensorData s1 !! key = sensorData s2 !! key →
  sensor_state (apply_updates s1 (build_updates key c records now entry)) key
  = sensor_state (apply_updates s2 (build_updates key c records now entry)) key.
Proof.
  intros Heq.
  assert (log_of s1 key = log_of s2 key) as Hlog
    by (unfold log_of; by rewrite Heq).
  destruct (apply_build_updates s1 key c records now entry)
    as (Hm1 & _ & _ & _ & Hk1 & Hc1 & Hu1 & Hin1 & Hout1).
  destruct (apply_build_updates s2 key c records now entry)
    as (Hm2 & _ & _ & _ & Hk2 & Hc2 & Hu2 & Hin2 & Hout2).
  unfold sensor_state.
  rewrite Hm1, Hm2, Hk1, Hk2, !lookup_insert_eq. do 2 f_equal.
  destruct (log_of (apply_updates s1 _) key) as [d1 c1 u1].
  destruct (log_of (apply_updates s2 _) key) as [d2 c2 u2].
  simpl in *. subst. f_equal.
  apply map_eq. intros z.
  destruct (decide (c ≤ z < c + Z.of_nat (length records))%Z) as [Hz|Hz].
  - destruct (lookup_lt_is_Some_2 records (Z.to_nat (z - c))) as [r Hr];
      [lia|].
    replace z with (c + Z.of_nat (Z.to_nat (z - c)))%Z by lia.
    by rewrite (Hin1 _ _ Hr), (Hin2 _ _ Hr).
  - rewrite Hout1, Hout2 by lia. by rewrite Hlog.
Qed.

(** What an iteration does to its sensor depends on the world only through
    that sensor's watermark as read, its log and its entry of
    [latestValues]. *)
Lemma process_sensor_local E lts1 lts2 key cfg a1 a2 w1 w2 :
  lts1 !! key = lts2 !! key →
  sensor_state (db w1) key = sensor_state (db w2) key →
  latestValues a1 !! key = latestValues a2 !! key →
  sensor_state (db (process_sensor E lts1 key cfg a1 w1).2) key
  = sensor_state (db (process_sensor E lts2 key cfg a2 w2).2) key ∧
  match (process_sensor E lts1 key cfg a1 w1).1,
        (process_sensor E lts2 key cfg a2 w2).1 with
  | Done a1', Done a2' => latestValues a1' !! key = latestValues a2' !! key
  | Thrown _, Thrown _ => True
  | _, _ => False
  end.
Proof.
  intros Hlts Hst Hlv.
  assert (read_recordCount (db w1) key = read_recordCount (db w2) key) as Hrc.
  { unfold read_recordCount. by injection Hst as _ ->. }
  destruct (process_sensor_cases E lts1 key cfg a1 w1)
    as (res & ds & _ & Hf & H1).
  destruct (process_sensor_cases E lts2 key cfg a2 w2)
    as (res' & ds' & _ & Hf' & H2).
  pose proof (Hf w1) as Heq. rewrite Hf' in Heq.
  injection Heq as <- _.
  unfold lastTs_of in *. rewrite <- Hlts in H2.
  destruct res' as [r|]; [|by rewrite H1, H2].
  cbv zeta in H1, H2.
  set (increment := trulyNewRecords (lastTs_of_entry (lts1 !! key))
                      (result_data r)) in *.
  assert (result_data r = [] → increment = []) as Hnil.
  { intros Hnil. subst increment. by rewrite Hnil. }
  destruct H1 as [[Hd1 H1]|[(Hd1 & Hi1 & x1 & Hx1 & H1)
                 |[(n1 & Hn1 & Hfail1 & H1)|(n1 & Hn1 & Hc1 & Hu1 & H1)]]];
    destruct H2 as [[Hd2 H2]|[(Hd2 & Hi2 & x2 & Hx2 & H2)
                   |[(n2 & Hn2 & Hfail2 & H2)|(n2 & Hn2 & Hc2 & Hu2 & H2)]]];
    rewrite H1, H2; cbn [fst snd db];
    try (exfalso; congruence);
    try (exfalso; rewrite (Hnil Hd1) in Hn2; by simpl in Hn2);
    try (exfalso; rewrite (Hnil Hd2) in Hn1; by simpl in Hn1);
    try (exfalso; rewrite Hi1 in Hn2; by simpl in Hn2);
    try (exfalso; rewrite Hi2 in Hn1; by simpl in Hn1);
    try (exfalso; destruct Hfail1; congruence);
    try (exfalso; destruct Hfail2; congruence).
  - split; [done|].
    destruct (lts1 !! key ≫= latestValue) as [v|]; simpl;
      [by rewrite !lookup_insert_eq|done].
  - split; [done|]. simpl. rewrite !lookup_insert_eq. congruence.
  - split; [done|]. simpl. rewrite !lookup_insert_eq. congruence.
  - rewrite Hrc. assert (n1 = n2) as -> by congruence.
    split; [|simpl; by rewrite !lookup_insert_eq].
    apply apply_updates_local. by injection Hst as _ ->.
Qed.

(** The loop leaves alone the entry of [latestValues] of a sensor it does
    not iterate over. *)
Lemma process_all_latest_other E lts sensors a w a' w' k :
  k ∉ sensors.*1 →
  process_all E lts sensors a w = (Done a', w') →
  latestValues a' !! k = latestValues a !! k.
Proof.
  revert a w. induction sensors as [|[key cfg] rest IH]; intros a w Hk Hp.
  { simpl in Hp. by injection Hp as -> _. }
  rewrite fmap_cons in Hk. apply not_elem_of_cons in Hk as [Hne Hk].
  simpl in *. unfold bind in Hp.
  destruct (process_sensor E lts key cfg a w) as [[a1|e] w1] eqn:Hhead;
    [|done].
  rewrite (IH a1 w1 Hk Hp).
  destruct (process_sensor_acc _ _ _ _ _ _ _ _ Hhead)
    as ([[-> _]|(v & -> & _)] & _); [done|].
  by rewrite lookup_insert_ne.
Qed.

(** In a loop that runs to its end, the final state of a sensor and its
    entry of [latestValues] are those its own iteration produced, and that
    iteration started from the sensor's initial state. *)
Lemma process_all_at_key E lts sensors a w a' w' key cfg :
  NoDup sensors.*1 →
  (key, cfg) ∈ sensors →
  process_all E lts sensors a w = (Done a', w') →
  ∃ a0 w0 a1 w1,
    sensor_state (db w0) key = sensor_state (db w) key ∧
    latestValues a0 !! key = latestValues a !! key ∧
    process_sensor E lts key cfg a0 w0 = (Done a1, w1) ∧
    sensor_state (db w') key = sensor_state (db w1) key ∧
    latestValues a' !! key = latestValues a1 !! key.
Proof.
  revert a w. induction sensors as [|[k c] rest IH]; intros a w Hnd Hin Hp.
  { by apply elem_of_nil in Hin. }
  rewrite fmap_cons in Hnd. simpl in Hnd.
  apply NoDup_cons in Hnd as [Hk Hnd].
  simpl in Hp. unfold bind in Hp.
  destruct (process_sensor E lts k c a w) as [[a1|e] w1] eqn:Hhead; [|done].
  apply elem_of_cons in Hin as [[= -> ->]|Hin].
  - exists a, w, a1, w1. split_and!; try done.
    + pose proof (process_all_other E lts rest a1 w1 k Hk) as H.
      by rewrite Hp in H.
    + by eapply process_all_latest_other.
  - assert (key ≠ k) as Hne.
    { intros ->. apply Hk. apply list_elem_of_fmap. by exists (k, cfg). }
    destruct (IH a1 w1 Hnd Hin Hp) as (a0 & w0 & a2 & w2 & Hs & Hl & Hrest).
    destruct Hrest as (Hp2 & Hs2 & Hl2).
    exists a0, w0, a2, w2. split_and!; try done.
    + rewrite Hs.
      pose proof (process_sensor_step E lts k c a w) as (_ & Ho & _).
      rewrite Hhead in Ho. by apply Ho.
    + rewrite Hl.
      destruct (process_sensor_acc _ _ _ _ _ _ _ _ Hhead)
        as ([[-> _]|(v & -> & _)] & _); [done|].
      by rewrite lookup_insert_ne.
Qed.

End Isolation.

Section RunAtKey.
Context {V : Type}.
Implicit Types (E : env V) (w : world V).

(** A run that exits with status 0: its loop ran to its end, and the final
    store shows, for every sensor, the state the loop left and, in the run
    metadata, the latest values the loop collected. *)
Lemma script_exit_0 E w :
  (script E w).1 = 0%Z →
  ∃ a' w',
    process_all E (if meta_read_fails E then ∅ else sensorMeta (db w))
      SENSORS acc_init w = (Done a', w') ∧
    (∀ k, sensor_state (db (script E w).2) k = sensor_state (db w') k) ∧
    ∀ k, (weatherMetadata (db (script E w).2)
            ≫= λ m, summary_latestValues m !! k) = latestValues a' !! k.
Proof.
  unfold script. rewrite main_unfold.
  destruct (process_all E _ SENSORS acc_init w) as [[a1|e] w1]; simpl; [|done].
  destruct (metadata_write_fails E); simpl; [done|]. intros _.
  by exists a1, w1.
Qed.

End RunAtKey.

(** ** The log of a sensor after a run *)

Section AppendedLog.
Context {V : Type}.
Implicit Types (E : env V) (w : world V) (a : acc V)
  (lts : gmap string (watermark V))
  (sensors : list (string * sensor_config)).

(** Over distinct keys, the loop either leaves the state of a sensor as it
    is, or the sensor's own iteration fetched a result and applied to the
    sensor's state the update built from the increment of that result
    against the sensor's entry of [lastTimestamps]. *)
Lemma process_all_appends E lts sensors a w key :
  NoDup sensors.*1 →
  let w' := (process_all E lts sensors a w).2 in
  sensor_state (db w') key = sensor_state (db w) key ∨
  ∃ cfg res newestRecord,
    let increment := trulyNewRecords (lastTs_of lts key) (result_data res) in
    (key, cfg) ∈ sensors ∧
    (fetchSensor E key cfg 3 w).1 = Done (Some res) ∧
    last increment = Some newestRecord ∧
    count_read_fails E key = false ∧
    update_fails E key = false ∧
    sensor_state (db w') key
    = sensor_state
        (apply_updates (db w)
           (build_updates key (read_recordCount (db w) key) increment
              (clock E) (newTimestamp_entry (clock E) newestRecord))) key.
Proof.
  revert a w. induction sensors as [|[k c] rest IH]; intros a w Hnd;
    [by left|].
  rewrite fmap_cons in Hnd. simpl in Hnd.
  apply NoDup_cons in Hnd as [Hk Hnd].
  cbv zeta. simpl. unfold bind.
  pose proof (process_sensor_db E lts k c a w) as Hdb.
  pose proof (process_sensor_step E lts k c a w) as (_ & Hother & _).
  cbv zeta in Hdb.
  destruct (process_sensor E lts k c a w) as [[a1|e] w1]; cbn [fst snd] in *.
  - destruct (decide (key = k)) as [->|Hne].
    + rewrite process_all_other by done.
      destruct Hdb as [->|(res & newest & Hf & Hlast & Hc & Hu & ->)];
        [by left|].
      right. exists c, res, newest. split_and!; try done.
      apply elem_of_cons. by left.
    + specialize (Hother key Hne).
      destruct (IH a1 w1 Hnd)
        as [Hsame|(cfg & res & newest & Hin & Hf & Hlast & Hc & Hu & Hst)].
      * left. by rewrite Hsame.
      * right. exists cfg, res, newest. split_and!; try done.
        -- apply elem_of_cons. by right.
        -- by rewrite (fetchSensor_result_indep E key cfg 3 w w1).
        -- rewrite Hst.
           assert (sensorData (db w1) !! key = sensorData (db w) !! key)
             as Hd by (by injection Hother).
           assert (read_recordCount (db w1) key = read_recordCount (db w) key)
             as -> by (unfold read_recordCount; by rewrite Hd).
           by apply apply_updates_local.
  - destruct (decide (key = k)) as [->|Hne]; [|left; by apply Hother].
    destruct Hdb as [->|(res & newest & Hf & Hlast & Hc & Hu & ->)];
      [by left|].
    right. exists c, res, newest. split_and!; try done.
    apply elem_of_cons. by left.
Qed.

End AppendedLog.

(** C8 (as amended).  Take a run whose bulk read of the watermarks
    succeeds, and a sensor whose stored log holds the readings [rs] at the
    positions 0, 1, ... with [recordCount] their number, sorted ascending by
    timestamp, none of them later than the sensor's stored watermark (the
    [lastTimestamp] of its entry of [sensorMeta], 0 when there is none).
    After the run, either the watermark and the log of the sensor are as
    before, or the sensor's fetch returned readings of which some are later
    than the stored watermark, the append succeeded, and the stored log
    holds [rs] followed by the increment (those readings, sorted); that log
    is still sorted ascending by timestamp, none of its readings is later
    than the new stored watermark, and it is free of repeated timestamps
    exactly when [rs] and the fetched readings above the former watermark
    both are. *)
Theorem append_keeps_log_sorted {V : Type} (E : env V) (w : world V)
    (key : string) (l : sensor_log V) (rs : list (reading V)) :
  meta_read_fails E = false →
  sensorData (db w) !! key = Some l →
  log_holds l rs →
  StronglySorted ts_le rs →
  let stored := default 0%Z (lastTimestamp <$> sensorMeta (db w) !! key) in
  (∀ r, r ∈ rs → (timestamp r ≤ stored)%Z) →
  let after := db (script E w).2 in
  sensor_state after key = sensor_state (db w) key ∨
  ∃ cfg res l',
    let selected :=
      filter (λ r, (stored < timestamp r)%Z) (result_data res) in
    let increment := trulyNewRecords stored (result_data res) in
    (key, cfg) ∈ SENSORS ∧
    (fetchSensor E key cfg 3 w).1 = Done (Some res) ∧
    count_read_fails E key = false ∧
    update_fails E key = false ∧
    selected ≠ [] ∧
    sensorData after !! key = Some l' ∧
    log_holds l' (rs ++ increment) ∧
    StronglySorted ts_le (rs ++ increment) ∧
    (∀ r, r ∈ rs ++ increment →
       (timestamp r ≤ default 0 (lastTimestamp <$> sensorMeta after !! key))%Z) ∧
    (NoDup (timestamp <$> (rs ++ increment))
     ↔ NoDup (timestamp <$> rs) ∧ NoDup (timestamp <$> selected)).
Proof.
  intros Hread Hl Hlog Hsorted stored Hbound after.
  assert (lastTs_of (sensorMeta (db w)) key = stored) as Hts
    by apply lastTs_of_entry_default.
  pose proof (process_all_appends E
                (if meta_read_fails E then ∅ else sensorMeta (db w))
                SENSORS acc_init w key NoDup_SENSORS) as Hloop.
  cbv zeta in Hloop.
  rewrite <- main_sensor_state, <- script_world, Hread in Hloop.
  fold after in Hloop. rewrite Hts in Hloop.
  destruct Hloop
    as [Hsame|(cfg & res & newest & Hin & Hf & Hlast & Hc & Hu & Hst)];
    [by left|].
  right.
  set (increment := trulyNewRecords stored (result_data res)) in *.
  pose proof (log_holds_append (db w) key rs increment (clock E)
                (newTimestamp_entry (clock E) newest)) as Hheld.
  destruct (apply_build_updates (db w) key (read_recordCount (db w) key)
              increment (clock E) (newTimestamp_entry (clock E) newest))
    as (Hm & _ & _ & _ & Hkey & _).
  set (s' := apply_updates (db w) _) in *.
  injection Hst as Hmeta Hdata.
  assert (∀ x y, x ∈ rs → y ∈ increment → (timestamp x < timestamp y)%Z)
    as Hlt.
  { intros x y Hx [_ Hy]%elem_of_trulyNewRecords.
    specialize (Hbound x Hx). lia. }
  destruct (newestRecord_max _ _ _ Hlast) as (_ & Hgt & Hmax).
  exists cfg, res, (log_of s' key). cbv zeta. split_and!; try done.
  - intros Hnil. apply (trulyNewRecords_nil stored) in Hnil.
    fold increment in Hnil. by rewrite Hnil in Hlast.
  - by rewrite Hdata.
  - apply Hheld. unfold log_of. by rewrite Hl.
  - apply StronglySorted_app. split_and!; [|done|apply trulyNewRecords_sorted].
    intros x y Hx Hy. specialize (Hlt x y Hx Hy). unfold ts_le. lia.
  - intros r Hr. rewrite Hmeta, Hm, lookup_insert_eq. simpl.
    apply elem_of_app in Hr as [Hr|[Hr Hr']%elem_of_trulyNewRecords].
    + specialize (Hbound r Hr). lia.
    + by apply Hmax.
  - rewrite fmap_app, NoDup_app.
    assert (NoDup (timestamp <$> increment)
            ↔ NoDup (timestamp <$>
                       filter (λ r, (stored < timestamp r)%Z)
                         (result_data res)))
      as <-.
    { unfold increment, trulyNewRecords, newer_than.
      by rewrite sort_by_timestamp_perm. }
    split; [tauto|]. intros [Hrs Hinc]. split_and!; [done| |done].
    intros t (x & -> & Hx)%list_elem_of_fmap (y & Heq & Hy)%list_elem_of_fmap.
    specialize (Hlt x y Hx Hy). lia.
Qed.

Lemma append_keeps_log_sorted_witness :
  let E := Examples.env_ok
             (Examples.upstream_for "temperature"
                (Success [(120, 23); (110, 22)]%Z)) in
  let w := World Examples.store_100 [] in
  let l := SensorLog {[ 0%Z := Reading 100 21%Z "temperature" "°C" ]}
             (Some 1%Z) (Some 0%Z) in
  let rs' := [Reading 100 21%Z "temperature" "°C";
              Reading 110 22%Z "temperature" "°C";
              Reading 120 23%Z "temperature" "°C"] in
  meta_read_fails E = false ∧
  sensorData (db w) !! "temperature" = Some l ∧
  sensorMeta (db w) !! "temperature" = Some (Watermark 100 (Some 21%Z) 0) ∧
  ∃ l', sensorData (db (script E w).2) !! "temperature" = Some l' ∧
        log_holds l' rs' ∧
        StronglySorted ts_le rs' ∧
        NoDup (timestamp <$> rs').
Proof.
  intros E w l rs'. split_and!; [reflexivity..|].
  destruct (append_keeps_log_sorted E w "temperature" l
              [Reading 100 21%Z "temperature" "°C"])
    as [Hsame|(cfg & res & l' & Hin & Hf & _ & _ & _ & Hl' & Hlog & Hsorted
               & _ & Hnodup)].
  - reflexivity.
  - reflexivity.
  - exact store_100_log_holds.
  - repeat constructor.
  - intros r ->%list_elem_of_singleton. vm_compute. discriminate.
  - exfalso. vm_compute in Hsame. discriminate.
  - assert (res = FetchResult "temperature"
                    [Reading 120 23%Z "temperature" "°C";
                     Reading 110 22%Z "temperature" "°C"] None) as ->.
    { assert (cfg = Examples.temperature_cfg) as ->.
      { clear -Hin. unfold SENSORS in Hin.
        repeat (apply elem_of_cons in Hin as [Hin|Hin];
                [first [discriminate Hin | by injection Hin]|]).
        by apply elem_of_nil in Hin. }
      vm_compute in Hf. congruence. }
    exists l'. split; [exact Hl'|]. split; [exact Hlog|].
    split; [exact Hsorted|].
    apply Hnodup. split.
    + apply NoDup_singleton.
    + apply (bool_decide_unpack (NoDup [120; 110]%Z)). vm_compute. exact I.
Defined.

(** X16. Sensors are isolated from one another in runs that exit with
    status 0: if two environments give a sensor the same answers from
    upstream, the same database failures and the same clock, and agree on
    the bulk read of the watermarks, then from the same store the two runs
    leave that sensor with the same watermark and log and report the same
    latest value for it, whatever happens to the other sensors. *)
Theorem sensors_are_isolated {V : Type} (E1 E2 : env V) (w : world V)
    (key : string) :
  agree_on key E1 E2 →
  meta_read_fails E1 = meta_read_fails E2 →
  (script E1 w).1 = 0%Z →
  (script E2 w).1 = 0%Z →
  sensor_state (db (script E1 w).2) key
  = sensor_state (db (script E2 w).2) key ∧
  (weatherMetadata (db (script E1 w).2) ≫= λ m, summary_latestValues m !! key)
  = (weatherMetadata (db (script E2 w).2)
       ≫= λ m, summary_latestValues m !! key).
Proof.
  intros Hagree Hread H1 H2.
  destruct (script_exit_0 E1 w H1) as (a1 & w1 & Hp1 & -> & ->).
  destruct (script_exit_0 E2 w H2) as (a2 & w2 & Hp2 & -> & ->).
  rewrite <- Hread in Hp2.
  set (lts := if meta_read_fails E1 then ∅ else sensorMeta (db w)) in *.
  destruct (decide (key ∈ SENSORS.*1)) as [Hin|Hout].
  - apply list_elem_of_fmap in Hin as ([k cfg] & -> & Hin). cbn [fst] in *.
    destruct (process_all_at_key E1 lts SENSORS acc_init w a1 w1 k cfg
                NoDup_SENSORS Hin Hp1)
      as (b1 & v1 & c1 & x1 & Hs1 & Hl1 & Hi1 & -> & ->).
    destruct (process_all_at_key E2 lts SENSORS acc_init w a2 w2 k cfg
                NoDup_SENSORS Hin Hp2)
      as (b2 & v2 & c2 & x2 & Hs2 & Hl2 & Hi2 & -> & ->).
    rewrite <- (process_sensor_agree E1 E2) in Hi2 by done.
    destruct (process_sensor_local E1 lts lts k cfg b1 b2 v1 v2)
      as [Hst Hlv]; [done|congruence|congruence|].
    rewrite Hi1, Hi2 in Hst, Hlv. done.
  - pose proof (process_all_other E1 lts SENSORS acc_init w key Hout) as Ho1.
    pose proof (process_all_other E2 lts SENSORS acc_init w key Hout) as Ho2.
    rewrite Hp1 in Ho1. rewrite Hp2 in Ho2. cbn [snd] in *.
    split; [congruence|].
    rewrite (process_all_latest_other _ _ _ _ _ _ _ _ Hout Hp1).
    by rewrite (process_all_latest_other _ _ _ _ _ _ _ _ Hout Hp2).
Qed.

(** X17. The latest value the run summary reports for a sensor, in a run
    that exits with status 0 and in which the sensor's fetch returns a
    result: the value of the newest fetched reading above the watermark the
    run read, if there is one (also when its append failed); otherwise the
    value of the last fetched reading, in the order of the response, if
    there is one; otherwise the [latestValue] of the watermark the run read,
    and no entry when there is none. *)
Theorem summary_latest_value {V : Type} (E : env V) (w : world V)
    (key : string) (cfg : sensor_config) (res : fetch_result V) :
  (key, cfg) ∈ SENSORS →
  (script E w).1 = 0%Z →
  (fetchSensor E key cfg 3 w).1 = Done (Some res) →
  let lts := if meta_read_fails E then ∅ else sensorMeta (db w) in
  let increment := trulyNewRecords (lastTs_of lts key) (result_data res) in
  (weatherMetadata (db (script E w).2) ≫= λ m, summary_latestValues m !! key)
  = match last increment, last (result_data res) with
    | Some newestRecord, _ => Some (value newestRecord)
    | None, Some x => Some (value x)
    | None, None => lts !! key ≫= latestValue
    end.
Proof.
  intros Hin Hexit Hf lts increment.
  destruct (script_exit_0 E w Hexit) as (a' & w' & Hp & _ & ->).
  fold lts in Hp.
  destruct (process_all_at_key E lts SENSORS acc_init w a' w' key cfg
              NoDup_SENSORS Hin Hp)
    as (a0 & w0 & a1 & w1 & _ & Hl0 & Hi & _ & ->).
  change (latestValues acc_init !! key) with ((∅ : gmap string V) !! key)
    in Hl0.
  rewrite lookup_empty in Hl0.
  destruct (process_sensor_cases E lts key cfg a0 w0)
    as (res' & ds & _ & Hf' & Hcases).
  rewrite Hf' in Hf. injection Hf as ->.
  cbv zeta in Hcases. fold increment in Hcases.
  destruct Hcases
    as [[Hd H]|[(Hd & Hinc & x & Hx & H)
       |[(n & Hn & _ & H)|(n & Hn & _ & _ & H)]]];
    rewrite Hi in H; injection H as -> _.
  - assert (increment = []) as -> by (subst increment; by rewrite Hd).
    rewrite Hd. simpl.
    destruct (lts !! key ≫= latestValue) as [v|]; simpl;
      [by rewrite lookup_insert_eq|done].
  - rewrite Hinc, Hx. simpl. by rewrite lookup_insert_eq.
  - rewrite Hn. simpl. by rewrite lookup_insert_eq.
  - rewrite Hn. simpl. by rewrite lookup_insert_eq.
Qed.

(** ** The further theorems at concrete inputs *)

Lemma fetchSensor_returns_first_success_witness :
  let E := Examples.env_ok MoreExamples.upstream_third_try in
  let w := World Examples.store_100 [] in
  fetchSensor E "temperature" Examples.temperature_cfg 3 w
  = (Done (Some (FetchResult "temperature"
             [Reading 110 22%Z "temperature" "°C";
              Reading 120 23%Z "temperature" "°C"] None)),
     World Examples.store_100 [2000; 1000]%Z).
Proof.
  intros E w.
  apply (fetchSensor_returns_first_success E "temperature"
           Examples.temperature_cfg 3 2 [(110, 22); (120, 23)]%Z w).
  - lia.
  - reflexivity.
  - intros [|[|n]] records Hn; [discriminate|discriminate|lia].
Defined.

Lemma summary_counts_are_bounded_witness :
  let E := Examples.env_update_fails
             (Examples.upstream_for "temperature" (Success [(110, 23)]%Z)) in
  let w := World Examples.store_100 [] in
  (script E w).1 = 0%Z ∧
  ∃ m, weatherMetadata (db (script E w).2) = Some m ∧
       sensorCount m ≤ size (summary_latestValues m) ∧
       size (summary_latestValues m) ≤ length SENSORS ∧
       ∀ k, is_Some (summary_latestValues m !! k) → k ∈ SENSORS.*1.
Proof.
  intros E w.
  assert ((script E w).1 = 0%Z) as Hexit by (vm_compute; reflexivity).
  exact (conj Hexit (summary_counts_are_bounded E w Hexit)).
Defined.

Lemma run_paces_every_sensor_witness :
  let E := Examples.env_ok
             (Examples.upstream_for "temperature" (Success [(110, 23)]%Z)) in
  let w := World Examples.store_100 [] in
  ∃ ds, slept (script E w).2 = slept w ++ ds ∧
        length (filter (λ d, d = 200%Z) ds) = length SENSORS.
Proof.
  intros E w. apply (run_paces_every_sensor E w).
  intros key cfg _.
  assert (∃ records, upstream E key 0 = Success records) as [records Hup].
  { simpl. unfold Examples.upstream_for. case_decide; by eexists. }
  by rewrite (fetchSensor_first_success E key cfg 2 records w Hup).
Defined.

Lemma total_new_records_is_growth_witness :
  let E := Examples.env_ok
             (Examples.upstream_for "temperature"
                (Success [(110, 22); (120, 23)]%Z)) in
  let w := World Examples.store_100 [] in
  ∃ a' w',
    process_all E (sensorMeta (db w)) SENSORS acc_init w = (Done a', w') ∧
    Z.of_nat (totalNewRecords a')
    = foldr Z.add 0%Z
        ((λ k, read_recordCount (db w') k - read_recordCount (db w) k)%Z
           <$> SENSORS.*1).
Proof.
  intros E w.
  destruct (process_all E (sensorMeta (db w)) SENSORS acc_init w)
    as [[a'|e] w'] eqn:Hp.
  - exists a', w'. split; [reflexivity|].
    exact (total_new_records_is_growth E _ w w' a' Hp).
  - exfalso. vm_compute in Hp. discriminate Hp.
Defined.

Lemma run_only_appends_witness :
  let E := Examples.env_ok
             (Examples.upstream_for "temperature"
                (Success [(110, 22); (120, 23)]%Z)) in
  let w := World Examples.store_100 [] in
  let rs := [Reading 100 21%Z "temperature" "°C"] in
  holds_readings (sensorData (db w) !! "temperature") rs ∧
  ∃ inc,
    holds_readings (sensorData (db (script E w).2) !! "temperature")
      (rs ++ inc) ∧
    StronglySorted ts_le inc.
Proof.
  intros E w rs.
  assert (holds_readings (sensorData (db w) !! "temperature") rs) as Hrs
    by exact store_100_log_holds.
  exact (conj Hrs (run_only_appends E w "temperature" rs Hrs)).
Defined.

Lemma store_100_consistent :
  consistent (sensor_state Examples.store_100 "temperature").
Proof.
  exists [Reading 100 21%Z "temperature" "°C"]. split_and!.
  - exact store_100_log_holds.
  - repeat constructor.
  - intros r [= <-]. reflexivity.
Defined.

Lemma run_keeps_consistent_witness :
  let E := Examples.env_ok
             (Examples.upstream_for "temperature"
                (Success [(120, 23); (110, 22)]%Z)) in
  let w := World Examples.store_100 [] in
  meta_read_fails E = false ∧
  consistent (sensor_state (db w) "temperature") ∧
  consistent (sensor_state (db (script E w).2) "temperature").
Proof.
  intros E w. split; [reflexivity|]. split; [exact store_100_consistent|].
  exact (run_keeps_consistent E w "temperature" eq_refl store_100_consistent).
Defined.

Lemma iteration_stores_exactly_the_new_witness :
  let E := Examples.env_ok
             (Examples.upstream_for "temperature"
                (Success [(90, 19); (120, 23); (110, 22)]%Z)) in
  let w := World Examples.store_100 [] in
  let lts := sensorMeta Examples.store_100 in
  let fetched := [Reading 90 19%Z "temperature" "°C";
                  Reading 120 23%Z "temperature" "°C";
                  Reading 110 22%Z "temperature" "°C"] in
  let w' := (process_sensor E lts "temperature" Examples.temperature_cfg
               acc_init w).2 in
  read_recordCount (db w') "temperature" = 3%Z ∧
  (∀ r, r ∈ fetched → (100 < timestamp r)%Z →
        ∃ i : nat, i < 2 ∧
          data (log_of (db w') "temperature") !! (1 + Z.of_nat i)%Z = Some r) ∧
  (∀ (i : nat) r, i < 2 →
        data (log_of (db w') "temperature") !! (1 + Z.of_nat i)%Z = Some r →
        r ∈ fetched ∧ (100 < timestamp r)%Z).
Proof.
  intros E w lts fetched w'.
  exact (iteration_stores_exactly_the_new E lts "temperature"
           Examples.temperature_cfg acc_init w w
           (FetchResult "temperature" fetched None)
           eq_refl eq_refl eq_refl).
Defined.

Lemma second_run_changes_nothing_witness :
  let E := Examples.env_ok
             (Examples.upstream_for "temperature"
                (Success [(110, 22); (120, 23)]%Z)) in
  let w := World Examples.store_100 [] in
  meta_read_fails E = false ∧
  sensor_state (db (script E w).2) "temperature"
  ≠ sensor_state (db w) "temperature" ∧
  sensor_state (db (script E (script E w).2).2) "temperature"
  = sensor_state (db (script E w).2) "temperature".
Proof.
  intros E w. split; [reflexivity|]. split.
  - vm_compute. discriminate.
  - exact (second_run_changes_nothing E w "temperature" eq_refl).
Defined.

Lemma sensors_are_isolated_witness :
  let E1 := Examples.env_ok
              (Examples.upstream_for "temperature" (Success [(110, 23)]%Z)) in
  let E2 := Examples.env_ok MoreExamples.upstream_two_sensors in
  let w := World Examples.store_100 [] in
  agree_on "temperature" E1 E2 ∧
  sensor_state (db (script E1 w).2) "humidity"
  ≠ sensor_state (db (script E2 w).2) "humidity" ∧
  sensor_state (db (script E1 w).2) "temperature"
  = sensor_state (db (script E2 w).2) "temperature" ∧
  (weatherMetadata (db (script E1 w).2)
     ≫= λ m, summary_latestValues m !! "temperature")
  = (weatherMetadata (db (script E2 w).2)
       ≫= λ m, summary_latestValues m !! "temperature").
Proof.
  intros E1 E2 w.
  assert (agree_on "temperature" E1 E2) as Hagree.
  { split_and!; [intros n|..]; reflexivity. }
  split; [exact Hagree|]. split.
  - vm_compute. discriminate.
  - apply (sensors_are_isolated E1 E2 w "temperature" Hagree);
      vm_compute; reflexivity.
Defined.

Lemma summary_latest_value_witness :
  let E := Examples.env_update_fails
             (Examples.upstream_for "temperature"
                (Success [(120, 23); (110, 22)]%Z)) in
  let w := World Examples.store_100 [] in
  (script E w).1 = 0%Z ∧
  (weatherMetadata (db (script E w).2)
     ≫= λ m, summary_latestValues m !! "temperature") = Some 23%Z.
Proof.
  intros E w.
  assert ((script E w).1 = 0%Z) as Hexit by (vm_compute; reflexivity).
  split; [exact Hexit|].
  rewrite (summary_latest_value E w "temperature" Examples.temperature_cfg
             (FetchResult "temperature"
                [Reading 120 23%Z "temperature" "°C";
                 Reading 110 22%Z "temperature" "°C"] None)).
  - reflexivity.
  - apply (list_elem_of_lookup_2 _ 10). reflexivity.
  - exact Hexit.
  - reflexivity.
Defined.

(** * The append mode that re-reads the stored log *)

Section AppendModeFetch.
Context {V : Type}.

Lemma append_mode_fetch_attempts (E' : AppendMode.env V) (E : env V)
    key cfg retries remaining attempt :
  (∀ n, AppendMode.upstream E' key n = upstream E key n) →
  ∃ res ds,
    (∀ w, fetch_attempts E key cfg retries remaining attempt w
          = (Done res, World (db w) (slept w ++ ds))) ∧
    (∀ w', AppendMode.fetch_attempts E' key cfg retries remaining attempt w'
           = (Done res,
              AppendMode.World (AppendMode.db w')
                (AppendMode.slept w' ++ ds))).
Proof.
  intros Hup. revert attempt.
  induction remaining as [|n IH]; intros attempt; simpl.
  - exists None, []. split; intros w.
    + unfold ret. by rewrite app_nil_r, world_eta.
    + unfold AppendMode.ret. rewrite app_nil_r. by destruct w.
  - rewrite Hup. destruct (upstream E key attempt) as [|msg|records].
    + destruct (IH (S attempt)) as (res & ds & H1 & H2).
      exists res, ((2 ^ Z.of_nat attempt * 2000)%Z :: ds). split; intros w.
      * unfold bind, delay. rewrite H1. simpl. by rewrite <- app_assoc.
      * unfold AppendMode.bind, AppendMode.delay. rewrite H2. simpl.
        by rewrite <- app_assoc.
    + case_decide.
      * eexists _, []. split; intros w.
        -- unfold ret. by rewrite app_nil_r, world_eta.
        -- unfold AppendMode.ret. rewrite app_nil_r. by destruct w.
      * destruct (IH (S attempt)) as (res & ds & H1 & H2).
        exists res, (1000%Z :: ds). split; intros w.
        -- unfold bind, delay. rewrite H1. simpl. by rewrite <- app_assoc.
        -- unfold AppendMode.bind, AppendMode.delay. rewrite H2. simpl.
           by rewrite <- app_assoc.
    + eexists _, []. split; intros w.
      * unfold ret. by rewrite app_nil_r, world_eta.
      * unfold AppendMode.ret. rewrite app_nil_r. by destruct w.
Qed.

(** This copy of [fetchSensor] never throws and never touches the store. *)
Lemma append_mode_fetch_runs (E' : AppendMode.env V) key cfg retries :
  ∃ res ds, ∀ w',
    AppendMode.fetchSensor E' key cfg retries w'
    = (Done res,
       AppendMode.World (AppendMode.db w') (AppendMode.slept w' ++ ds)).
Proof.
  destruct (append_mode_fetch_attempts E'
              (Env (AppendMode.upstream E') false (λ _, false) (λ _, false)
                 false false 0)
              key cfg retries retries 0) as (res & ds & _ & H); [done|].
  by exists res, ds.
Qed.

End AppendModeFetch.

(** X18. The copy of [fetchSensor] in the append-mode script behaves as the
    one of the optimized script: given the same answers from upstream for a
    sensor, both return the same result and await the same delays, and
    neither throws or touches its store. *)
Theorem fetchSensor_copies_agree {V : Type} (E' : AppendMode.env V)
    (E : env V) (key : string) (cfg : sensor_config) (retries : nat) :
  (∀ n, AppendMode.upstream E' key n = upstream E key n) →
  ∃ res ds,
    (∀ w, fetchSensor E key cfg retries w
          = (Done res, World (db w) (slept w ++ ds))) ∧
    (∀ w', AppendMode.fetchSensor E' key cfg retries w'
           = (Done res,
              AppendMode.World (AppendMode.db w')
                (AppendMode.slept w' ++ ds))).
Proof. intros Hup. by apply append_mode_fetch_attempts. Qed.

Section AppendModeMerge.
Context {V : Type}.
Implicit Types (existing fetched : list (reading V)).

Lemma append_mode_new_iff existing fetched r :
  r ∈ AppendMode.trulyNewRecords existing fetched
  ↔ r ∈ fetched ∧ timestamp r ∉ timestamp <$> existing.
Proof.
  unfold AppendMode.trulyNewRecords, AppendMode.existingTimestamps.
  rewrite list_elem_of_filter, elem_of_list_to_set. tauto.
Qed.

Lemma mergedData_perm existing fetched :
  AppendMode.mergedData existing fetched
  ≡ₚ existing ++ AppendMode.trulyNewRecords existing fetched.
Proof. apply sort_by_timestamp_perm. Qed.

Lemma mergedData_sorted existing fetched :
  StronglySorted ts_le (AppendMode.mergedData existing fetched).
Proof. apply sort_by_timestamp_sorted. Qed.

(** Sorting a sorted list followed by later readings only sorts the
    latter. *)
Lemma sort_app_sorted (l1 l2 : list (reading V)) :
  StronglySorted ts_le l1 →
  (∀ x y, x ∈ l1 → y ∈ l2 → ts_le x y) →
  sort_by_timestamp (l1 ++ l2) = l1 ++ sort_by_timestamp l2.
Proof.
  intros Hs Hle. symmetry. apply sort_by_timestamp_unique.
  - apply StronglySorted_app. split_and!; [|done|apply sort_by_timestamp_sorted].
    intros x y Hx Hy. apply Hle; [done|]. by rewrite <- sort_by_timestamp_perm.
  - intros t. by rewrite !filter_app, sort_by_timestamp_stable.
Qed.

(** Fetched readings whose timestamps are all stored leave nothing new. *)
Lemma append_mode_nothing_new existing fetched :
  (∀ x, x ∈ fetched → timestamp x ∈ timestamp <$> existing) →
  AppendMode.trulyNewRecords existing fetched = [].
Proof.
  unfold AppendMode.trulyNewRecords, AppendMode.existingTimestamps.
  induction fetched as [|x l IH]; intros Hin; [done|].
  rewrite filter_cons_False.
  - apply IH. intros y Hy. apply Hin. by right.
  - intros Hx. apply Hx. rewrite elem_of_list_to_set. apply Hin. by left.
Qed.

End AppendModeMerge.

Section AppendModeIteration.
Context {V : Type}.
Implicit Types (E : AppendMode.env V) (w : AppendMode.world V)
  (a : AppendMode.acc V).

(** The store after an iteration whose fetch returned a result. *)
Lemma append_mode_process_sensor_db E key cfg is_last a w w1 res :
  AppendMode.fetchSensor E key cfg 3 w = (Done (Some res), w1) →
  let existing := AppendMode.read_existing E key (AppendMode.db w) in
  let merged := AppendMode.mergedData existing (result_data res) in
  AppendMode.db (AppendMode.process_sensor E key cfg is_last a w).2
  = if decide (merged = []) then AppendMode.db w
    else if AppendMode.save_fails E key then AppendMode.db w
    else AppendMode.Store
           (<[key := AppendMode.SensorNode merged (AppendMode.clock E)
                       (length merged)]>
              (AppendMode.sensorData (AppendMode.db w)))
           (AppendMode.weatherMetadata (AppendMode.db w))
           (AppendMode.weatherHistory (AppendMode.db w)).
Proof.
  intros Hf. cbv zeta.
  destruct (append_mode_fetch_runs E key cfg 3) as (res' & ds & Hruns).
  rewrite Hruns in Hf. injection Hf as -> <-.
  unfold AppendMode.process_sensor, AppendMode.bind at 1. rewrite Hruns.
  unfold AppendMode.bind, AppendMode.get_db, AppendMode.put_db,
    AppendMode.ret, AppendMode.delay. cbn [AppendMode.db].
  set (merged := AppendMode.mergedData _ _).
  destruct (last merged) as [newest|] eqn:Hlast.
  - rewrite decide_False by (intros Hnil; by rewrite Hnil in Hlast).
    destruct (AppendMode.save_fails E key); by destruct is_last.
  - apply last_None in Hlast. rewrite decide_True by done. by destruct is_last.
Qed.

End AppendModeIteration.

(** X19. An append-mode iteration whose fetch returns a result and whose
    write is accepted replaces the sensor's node by the merged log: the
    stored readings followed by the fetched readings whose timestamp is not
    stored yet, sorted ascending by timestamp, with [recordCount] their
    number; the nodes of the other sensors are untouched.  The merged log is
    free of repeated timestamps exactly when the stored log and the kept
    fetched readings both are. *)
Theorem append_mode_writes_merged_log {V : Type} (E : AppendMode.env V)
    (key : string) (cfg : sensor_config) (is_last : bool)
    (a : AppendMode.acc V) (w w1 : AppendMode.world V)
    (res : fetch_result V) :
  AppendMode.fetchSensor E key cfg 3 w = (Done (Some res), w1) →
  AppendMode.save_fails E key = false →
  let existing := AppendMode.read_existing E key (AppendMode.db w) in
  let new := AppendMode.trulyNewRecords existing (result_data res) in
  let merged := AppendMode.mergedData existing (result_data res) in
  let s' := AppendMode.db (AppendMode.process_sensor E key cfg is_last a w).2 in
  merged ≠ [] →
  AppendMode.sensorData s' !! key
  = Some (AppendMode.SensorNode merged (AppendMode.clock E) (length merged)) ∧
  (∀ k, k ≠ key →
        AppendMode.sensorData s' !! k
        = AppendMode.sensorData (AppendMode.db w) !! k) ∧
  StronglySorted ts_le merged ∧
  merged ≡ₚ existing ++ new ∧
  (∀ r, r ∈ new
        ↔ r ∈ result_data res ∧ timestamp r ∉ timestamp <$> existing) ∧
  (NoDup (timestamp <$> merged)
   ↔ NoDup (timestamp <$> existing) ∧ NoDup (timestamp <$> new)).
Proof.
  intros Hf Hsave existing new merged s' Hne. subst s'.
  rewrite (append_mode_process_sensor_db E key cfg is_last a w w1 res Hf).
  cbv zeta. fold existing. fold merged.
  rewrite decide_False by done. rewrite Hsave. cbn [AppendMode.sensorData].
  split_and!.
  - apply lookup_insert_eq.
  - intros k Hk. by rewrite lookup_insert_ne.
  - apply mergedData_sorted.
  - apply mergedData_perm.
  - intros r. apply append_mode_new_iff.
  - unfold merged. rewrite mergedData_perm. fold new.
    rewrite fmap_app, NoDup_app. split; [tauto|].
    intros [Hex Hnew]. split_and!; [done| |done].
    intros t Ht (r & -> & Hr)%list_elem_of_fmap.
    apply append_mode_new_iff in Hr as [_ Hr]. done.
Qed.

(** X20. When the read of the stored log is rejected, the append-mode
    iteration goes on with an empty log: if the fetch returns readings and
    the write is accepted, the sensor's node is replaced by the fetched
    readings alone, sorted, whatever was stored before. *)
Theorem append_mode_read_failure_replaces_log {V : Type}
    (E : AppendMode.env V) (key : string) (cfg : sensor_config)
    (is_last : bool) (a : AppendMode.acc V) (w w1 : AppendMode.world V)
    (res : fetch_result V) :
  AppendMode.fetchSensor E key cfg 3 w = (Done (Some res), w1) →
  AppendMode.existing_read_fails E key = true →
  AppendMode.save_fails E key = false →
  result_data res ≠ [] →
  AppendMode.sensorData
    (AppendMode.db (AppendMode.process_sensor E key cfg is_last a w).2) !! key
  = Some (AppendMode.SensorNode (sort_by_timestamp (result_data res))
            (AppendMode.clock E) (length (result_data res))).
Proof.
  intros Hf Hread Hsave Hne.
  rewrite (append_mode_process_sensor_db E key cfg is_last a w w1 res Hf).
  cbv zeta. unfold AppendMode.read_existing. rewrite Hread.
  assert (AppendMode.mergedData [] (result_data res)
          = sort_by_timestamp (result_data res)) as ->.
  { unfold AppendMode.mergedData, AppendMode.trulyNewRecords. simpl.
    f_equal. clear. induction (result_data res) as [|r l IH]; [done|].
    rewrite filter_cons_True; [by rewrite IH|].
    unfold AppendMode.existingTimestamps. simpl. apply not_elem_of_empty. }
  rewrite decide_False by (by rewrite sort_by_timestamp_nil).
  rewrite Hsave. cbn [AppendMode.sensorData]. rewrite lookup_insert_eq.
  do 2 f_equal. by rewrite sort_by_timestamp_perm.
Qed.

(** X21. Merging the same fetched readings a second time changes nothing:
    the merged log is a fixed point of the merge. *)
Theorem append_mode_merge_idempotent {V : Type}
    (existing fetched : list (reading V)) :
  AppendMode.mergedData (AppendMode.mergedData existing fetched) fetched
  = AppendMode.mergedData existing fetched.
Proof.
  set (merged := AppendMode.mergedData existing fetched).
  assert (AppendMode.trulyNewRecords merged fetched = []) as Hnone.
  { apply append_mode_nothing_new. intros x Hx.
    destruct (decide (timestamp x ∈ timestamp <$> existing)) as [Hold|Hnew].
    - apply list_elem_of_fmap in Hold as (y & Hy & Hyin).
      apply list_elem_of_fmap. exists y. split; [done|].
      unfold merged. rewrite mergedData_perm. apply elem_of_app. by left.
    - apply list_elem_of_fmap. exists x. split; [done|].
      unfold merged. rewrite mergedData_perm. apply elem_of_app. right.
      by apply append_mode_new_iff. }
  unfold AppendMode.mergedData at 1. rewrite Hnone, app_nil_r.
  apply sort_by_timestamp_id, mergedData_sorted.
Qed.

(** X22. The two versions agree when no reading arrives late: if the stored
    log is sorted ascending by timestamp, none of its readings is later
    than the watermark, and every fetched reading that is not later than the
    watermark has a stored timestamp, then the log the append mode writes
    is the stored log followed by the increment of the optimized merge
    step. *)
Theorem append_mode_agrees_with_increment {V : Type}
    (existing fetched : list (reading V)) (lastTs : Z) :
  StronglySorted ts_le existing →
  (∀ r, r ∈ existing → (timestamp r ≤ lastTs)%Z) →
  (∀ r, r ∈ fetched → (timestamp r ≤ lastTs)%Z →
        timestamp r ∈ timestamp <$> existing) →
  AppendMode.mergedData existing fetched
  = existing ++ trulyNewRecords lastTs fetched.
Proof.
  intros Hsorted Hbelow Hlate.
  assert (AppendMode.trulyNewRecords existing fetched
          = newer_than lastTs fetched) as Hnew.
  { unfold AppendMode.trulyNewRecords, newer_than.
    induction fetched as [|r l IH]; [done|].
    specialize (IH (λ x Hx, Hlate x (list_elem_of_further _ _ _ Hx))).
    destruct (decide (lastTs < timestamp r)%Z) as [Hgt|Hle].
    - assert (timestamp r ∉ AppendMode.existingTimestamps existing) as Hnot.
      { unfold AppendMode.existingTimestamps.
        rewrite elem_of_list_to_set.
        intros (y & Hy & Hyin)%list_elem_of_fmap.
        specialize (Hbelow y Hyin). lia. }
      rewrite filter_cons_True by done.
      rewrite (filter_cons_True (λ x, (lastTs < timestamp x)%Z)) by done.
      by rewrite IH.
    - assert (¬ (timestamp r ∉ AppendMode.existingTimestamps existing))
        as Hin.
      { intros Hn. apply Hn. unfold AppendMode.existingTimestamps.
        rewrite elem_of_list_to_set. apply Hlate; [by left|lia]. }
      rewrite filter_cons_False by done.
      rewrite (filter_cons_False (λ x, (lastTs < timestamp x)%Z)) by done.
      done. }
  unfold AppendMode.mergedData. rewrite Hnew.
  apply sort_app_sorted; [done|].
  intros x y Hx [Hy _]%list_elem_of_filter.
  specialize (Hbelow x Hx). unfold ts_le. lia.
Qed.

(** X23. A reading that arrives late is where the two versions differ: a
    fetched reading that is not later than the watermark and whose
    timestamp is not stored is part of the log the append mode writes, and
    is neither in the stored log nor in the increment of the optimized merge
    step. *)
Theorem late_reading_is_kept_only_by_append_mode {V : Type}
    (existing fetched : list (reading V)) (lastTs : Z) (r : reading V) :
  r ∈ fetched →
  (timestamp r ≤ lastTs)%Z →
  timestamp r ∉ timestamp <$> existing →
  r ∈ AppendMode.mergedData existing fetched ∧
  r ∉ existing ++ trulyNewRecords lastTs fetched.
Proof.
  intros Hr Hlate Hfresh. split.
  - rewrite mergedData_perm. apply elem_of_app. right.
    by apply append_mode_new_iff.
  - intros [Hin|Hin]%elem_of_app.
    + apply Hfresh. apply list_elem_of_fmap. by exists r.
    + apply elem_of_trulyNewRecords in Hin as [_ ?]. lia.
Qed.

(** ** The append-mode theorems at concrete inputs *)

Lemma fetchSensor_copies_agree_witness :
  let up := MoreExamples.upstream_third_try in
  ∃ res ds,
    (∀ w, fetchSensor (Examples.env_ok up) "temperature"
            Examples.temperature_cfg 3 w
          = (Done res, World (db w) (slept w ++ ds))) ∧
    (∀ w', AppendMode.fetchSensor (AppendExamples.env_ok up) "temperature"
             Examples.temperature_cfg 3 w'
           = (Done res,
              AppendMode.World (AppendMode.db w')
                (AppendMode.slept w' ++ ds))).
Proof.
  intros up.
  apply (fetchSensor_copies_agree (AppendExamples.env_ok up)
           (Examples.env_ok up) "temperature" Examples.temperature_cfg 3).
  intros n. reflexivity.
Defined.

Lemma append_mode_writes_merged_log_witness :
  let E := AppendExamples.env_ok
             (Examples.upstream_for "temperature"
                (Success [(120, 23); (100, 24); (110, 22)]%Z)) in
  let w := AppendMode.World AppendExamples.store_100 [] in
  AppendMode.sensorData
    (AppendMode.db
       (AppendMode.process_sensor E "temperature" Examples.temperature_cfg
          false AppendMode.acc_init w).2) !! "temperature"
  = Some (AppendMode.SensorNode
            [Reading 100 21%Z "temperature" "°C";
             Reading 110 22%Z "temperature" "°C";
             Reading 120 23%Z "temperature" "°C"] 5000 3).
Proof.
  intros E w.
  destruct (append_mode_writes_merged_log E "temperature"
              Examples.temperature_cfg false AppendMode.acc_init w w
              (FetchResult "temperature"
                 [Reading 120 23%Z "temperature" "°C";
                  Reading 100 24%Z "temperature" "°C";
                  Reading 110 22%Z "temperature" "°C"] None))
    as (Hnode & _).
  - reflexivity.
  - reflexivity.
  - vm_compute. discriminate.
  - exact Hnode.
Defined.

Lemma append_mode_read_failure_replaces_log_witness :
  let E := AppendExamples.env_read_fails
             (Examples.upstream_for "temperature"
                (Success [(120, 23); (110, 22)]%Z)) in
  let w := AppendMode.World AppendExamples.store_100 [] in
  AppendMode.sensorData
    (AppendMode.db
       (AppendMode.process_sensor E "temperature" Examples.temperature_cfg
          false AppendMode.acc_init w).2) !! "temperature"
  = Some (AppendMode.SensorNode
            [Reading 110 22%Z "temperature" "°C";
             Reading 120 23%Z "temperature" "°C"] 5000 2).
Proof.
  intros E w.
  apply (append_mode_read_failure_replaces_log E "temperature"
           Examples.temperature_cfg false AppendMode.acc_init w w
           (FetchResult "temperature"
              [Reading 120 23%Z "temperature" "°C";
               Reading 110 22%Z "temperature" "°C"] None)).
  - reflexivity.
  - reflexivity.
  - reflexivity.
  - discriminate.
Defined.

Lemma append_mode_agrees_with_increment_witness :
  let existing := [Reading 100 21%Z "temperature" "°C"] in
  let fetched := [Reading 100 24%Z "temperature" "°C";
                  Reading 120 23%Z "temperature" "°C";
                  Reading 110 22%Z "temperature" "°C"] in
  AppendMode.mergedData existing fetched
  = existing ++ trulyNewRecords 100 fetched.
Proof.
  intros existing fetched.
  apply (append_mode_agrees_with_increment existing fetched 100).
  - repeat constructor.
  - intros r ->%list_elem_of_singleton. simpl. lia.
  - intros r Hr Hle.
    apply elem_of_cons in Hr as [->|Hr]; [by left|].
    apply elem_of_cons in Hr as [->|Hr]; [simpl in Hle; lia|].
    apply list_elem_of_singleton in Hr as ->. simpl in Hle. lia.
Defined.

Lemma late_reading_is_kept_only_by_append_mode_witness :
  let existing := [Reading 100 21%Z "temperature" "°C"] in
  let late := Reading 95 20%Z "temperature" "°C" in
  let fetched := [late; Reading 110 22%Z "temperature" "°C"] in
  late ∈ AppendMode.mergedData existing fetched ∧
  late ∉ existing ++ trulyNewRecords 100 fetched.
Proof.
  intros existing late fetched.
  apply (late_reading_is_kept_only_by_append_mode existing fetched 100 late).
  - by left.
  - simpl. lia.
  - intros H. apply list_elem_of_singleton in H. discriminate H.
Defined.
